(** * LowVoiceBot: the ephemeral whisper vault, its expiration tasks and the
      cached user resolver of [lowvoicebot.py], embedded and verified. *)

From stdpp Require Import gmap strings list pretty.
From Stdlib Require Import NArith ZArith Ascii String.

Local Open Scope string_scope.
Local Open Scope list_scope.

(** ** Python primitives used by the bot *)

Module Py.

Definition LF : ascii := "010"%char.
Definition DQUOTE : ascii := "034"%char.

Definition chr (c : ascii) : string := String c EmptyString.

(** Three whitespace characters above 127, as their UTF-8 bytes: the
    no-break space U+00A0, the em space U+2003, the ideographic space
    U+3000. *)
Definition NBSP : string := String "194" (String "160" EmptyString).
Definition EM_SPACE : string :=
  String "226" (String "128" (String "131" EmptyString)).
Definition IDEOGRAPHIC_SPACE : string :=
  String "227" (String "128" (String "128" EmptyString)).

(** [str.isspace] on the code points below 128: TAB, LF, VT, FF, CR, the
    four separators FS, GS, RS, US and the space. *)
Definition isspace (c : ascii) : bool :=
  let n := N_of_ascii c in
  ((9 <=? n) && (n <=? 13) || (28 <=? n) && (n <=? 32))%N.

(** Texts are held as their UTF-8 bytes.  The whitespace characters above
    127, for [str.split] and [str.strip] as for [str.isspace], are U+0085 and
    U+00A0, two bytes each, and U+1680, U+2000 to U+200A, U+2028, U+2029,
    U+202F, U+205F and U+3000, three bytes each. *)
Definition is_space2 (c1 c2 : ascii) : bool :=
  let a := N_of_ascii c1 in
  let b := N_of_ascii c2 in
  ((a =? 194) && ((b =? 133) || (b =? 160)))%N.

Definition is_space3 (c1 c2 c3 : ascii) : bool :=
  let a := N_of_ascii c1 in
  let b := N_of_ascii c2 in
  let c := N_of_ascii c3 in
  ((a =? 225) && (b =? 154) && (c =? 128)
   || (a =? 226) && (b =? 128)
      && ((128 <=? c) && (c <=? 138) || (c =? 168) || (c =? 169) || (c =? 175))
   || (a =? 226) && (b =? 129) && (c =? 159)
   || (a =? 227) && (b =? 128) && (c =? 128))%N.

(** Whether [s] starts with a whitespace character. *)
Definition starts_with_space (s : string) : bool :=
  match s with
  | String c1 r1 =>
      isspace c1
      || match r1 with
         | String c2 r2 =>
             is_space2 c1 c2
             || match r2 with
                | String c3 _ => is_space3 c1 c2 c3
                | EmptyString => false
                end
         | EmptyString => false
         end
  | EmptyString => false
  end.

(** [s.lstrip()] *)
Fixpoint lstrip (s : string) : string :=
  match s with
  | String c1 r1 =>
      if isspace c1 then lstrip r1
      else
        match r1 with
        | String c2 r2 =>
            if is_space2 c1 c2 then lstrip r2
            else
              match r2 with
              | String c3 r3 => if is_space3 c1 c2 c3 then lstrip r3 else s
              | EmptyString => s
              end
        | EmptyString => s
        end
  | EmptyString => EmptyString
  end.

(** The maximal prefix of [s] without whitespace and what follows it. *)
Fixpoint take_word (s : string) : string * string :=
  match s with
  | String c s' =>
      if starts_with_space s then (EmptyString, s)
      else let '(w, r) := take_word s' in (String c w, r)
  | EmptyString => (EmptyString, EmptyString)
  end.

(** [s.split(maxsplit=1)]: split on runs of whitespace, at most once.  The
    remainder loses its leading whitespace and keeps its trailing one. *)
Definition split_maxsplit1 (s : string) : list string :=
  match lstrip s with
  | EmptyString => []
  | s1 =>
      let '(w, r) := take_word s1 in
      match lstrip r with
      | EmptyString => [w]
      | r' => [w; r']
      end
  end.

(** [s.split(sep, maxsplit=1)] for a one-character separator. *)
Fixpoint split_char1 (sep : ascii) (s : string) : list string :=
  match s with
  | EmptyString => [EmptyString]
  | String c s' =>
      if Ascii.eqb c sep then [EmptyString; s']
      else match split_char1 sep s' with
           | [a] => [String c a]
           | a :: rest => String c a :: rest
           | [] => []
           end
  end.

(** [s.startswith(p)], returning what follows the prefix. *)
Fixpoint strip_prefix (p s : string) : option string :=
  match p, s with
  | EmptyString, _ => Some s
  | String a p', String b s' =>
      if Ascii.eqb a b then strip_prefix p' s' else None
  | String _ _, EmptyString => None
  end.

Definition startswith (s p : string) : bool :=
  match strip_prefix p s with Some _ => true | None => false end.

(** [s[1:]] *)
Definition tail1 (s : string) : string :=
  match s with String _ s' => s' | EmptyString => EmptyString end.

(** *** [format(n, "x")] for a non-negative integer *)

Definition hex_digit (d : N) : ascii :=
  ascii_of_N (if (d <? 10)%N then 48 + d else 87 + d)%N.

Fixpoint hex_go (fuel : nat) (n : N) (acc : string) : string :=
  match fuel with
  | O => acc
  | S fuel' =>
      if (n =? 0)%N then acc
      else hex_go fuel' (n / 16)%N (String (hex_digit (n mod 16)%N) acc)
  end.

Definition format_x (n : N) : string :=
  if (n =? 0)%N then "0" else hex_go (N.size_nat n) n EmptyString.

(** *** The resolver's regular expression

    [<div\ class="tgme_page_title">(.+?)</div>], as [re.search] runs it
    without flags: the leftmost start wins, the group is lazy, and [.]
    does not match a line feed. *)

Definition RE_OPEN : string :=
  "<div class=" +:+ chr DQUOTE +:+ "tgme_page_title" +:+ chr DQUOTE +:+ ">".
Definition RE_CLOSE : string := "</div>".

(** The shortest non-empty, LF-free prefix of [s] followed by [close]. *)
Fixpoint lazy_group (close s : string) : option string :=
  match s with
  | EmptyString => None
  | String c s' =>
      if Ascii.eqb c LF then None
      else if startswith s' close then Some (chr c)
      else String c <$> lazy_group close s'
  end.

Definition match_here (s : string) : option string :=
  rest ← strip_prefix RE_OPEN s; lazy_group RE_CLOSE rest.

(** [REGEX_RESOLVE_USER.search(s)], reduced to its group 1. *)
Fixpoint search_group1 (s : string) : option string :=
  match match_here s with
  | Some g => Some g
  | None =>
      match s with
      | String _ s' => search_group1 s'
      | EmptyString => None
      end
  end.

(** Whether the character [c] occurs in [s]. *)
Fixpoint has_char (c : ascii) (s : string) : bool :=
  match s with
  | EmptyString => false
  | String a s' => Ascii.eqb a c || has_char c s'
  end.

(** Reading lower-case hexadecimal back, [int(s, 16)] on such digits. *)
Definition digit_val (c : ascii) : N :=
  let n := N_of_ascii c in
  (if n <=? 57 then n - 48 else n - 87)%N.

Fixpoint unhex (s : string) (acc : N) : N :=
  match s with
  | EmptyString => acc
  | String c s' => unhex s' (16 * acc + digit_val c)%N
  end.

End Py.

(** ** Exceptions

    The exception classes the code below can raise or receive from the
    libraries it calls.  All of them derive from [Exception], which is what
    [except Exception] in [resolve_user] tests; the cancellation of a task
    from outside is not part of this model. *)

Inductive exn :=
| ClientError          (* aiohttp: connection refused, timeout, ... *)
| UnicodeDecodeError   (* response.text() on an undecodable body *)
| AssertionError
| AttributeError
| KeyError
| ValueError
| InvalidQueryID.

Global Instance exn_eq_dec : EqDecision exn.
Proof. solve_decision. Defined.

Definition is_Exception (e : exn) : bool :=
  match e with
  | ClientError | UnicodeDecodeError | AssertionError | AttributeError
  | KeyError | ValueError | InvalidQueryID => true
  end.

Inductive result (A : Type) :=
| Return (a : A)
| Raise (e : exn).
Arguments Return {A} a.
Arguments Raise {A} e.

Definition bind {A B} (m : result A) (k : A → result B) : result B :=
  match m with
  | Return a => k a
  | Raise e => Raise e
  end.

Global Instance result_bind : MBind result := λ A B k m, bind m k.
Global Instance result_ret : MRet result := @Return.

(** [assert b] *)
Definition py_assert (b : bool) : result unit :=
  if b then Return tt else Raise AssertionError.

(** [try: body / except Exception: handler] *)
Definition try_except_Exception {A} (body : result A) (handler : exn → result A)
  : result A :=
  match body with
  | Return a => Return a
  | Raise e => if is_Exception e then handler e else Raise e
  end.

(** ** The user resolver *)

Module Resolver.

(** What the network does with one [HTTP_SESSION.get(url)]: the request
    itself fails, or a response arrives with a status and a body whose
    decoding may fail. *)
Inductive http_outcome :=
| GetRaises (e : exn)
| Response (status : Z) (text : result string).

(** The body of [resolve_user], below the decorator. *)
Definition resolve_user_body (o : http_outcome) : result (option string) :=
  try_except_Exception
    (match o with
     | GetRaises e => Raise e
     | Response status text =>
         py_assert (status =? 200)%Z;;
         body ← text;
         match Py.search_group1 body with
         | Some g => Return (Some g)       (* .group(1) *)
         | None => Raise AttributeError    (* None.group *)
         end
     end)
    (λ _, Return None).

(** The decorator's capacity: [maxsize=1024]. *)
Definition maxsize : nat := 1024.

(** The global state of the resolver: whether [HTTP_SESSION] has been
    created, the decorator's cache (most recently used first) and the
    requests sent so far. *)
Record state := mkState {
  HTTP_SESSION : bool;
  cache : list (string * option string);
  requests : list string;
}.

Definition init : state :=
  {| HTTP_SESSION := false; cache := []; requests := [] |}.

Definition cache_get (k : string) (c : list (string * option string))
  : option (option string) :=
  snd <$> List.find (λ e, String.eqb (fst e) k) c.

Definition cache_remove (k : string) (c : list (string * option string))
  : list (string * option string) :=
  List.filter (λ e, negb (String.eqb (fst e) k)) c.

(** Modelled from the spec: the [alru_cache(maxsize=1024)] decorator comes
    from the package async_lru, whose code is not among the sources.  It is a
    bounded cache keyed by the handle; a hit makes the entry the most
    recently used one, a miss stores the new result, a name or [None] alike,
    and drops the least recently used entry once the capacity is exceeded. *)
Definition alru_cache (f : state → string → state * result (option string))
  (st : state) (username : string) : state * result (option string) :=
  match cache_get username (cache st) with
  | Some r =>
      ({| HTTP_SESSION := HTTP_SESSION st;
          cache := (username, r) :: cache_remove username (cache st);
          requests := requests st |}, Return r)
  | None =>
      match f st username with
      | (st1, Return r) =>
          let c := (username, r) :: cache st1 in
          ({| HTTP_SESSION := HTTP_SESSION st1;
              cache := if decide (maxsize < List.length c) then removelast c else c;
              requests := requests st1 |}, Return r)
      | (st1, Raise e) => (st1, Raise e)
      end
  end.

Definition url_of (username : string) : string := "https://t.me/" +:+ username.

(** One uncached run of [resolve_user]: create the session if there is
    none, send the request and run the body on what comes back. *)
Definition resolve_user_uncached (net : string → http_outcome)
  (st : state) (username : string) : state * result (option string) :=
  ({| HTTP_SESSION := true; cache := cache st;
      requests := requests st ++ [url_of username] |},
   resolve_user_body (net (url_of username))).

(** [resolve_user] as the handlers call it. *)
Definition resolve_user (net : string → http_outcome)
  : state → string → state * result (option string) :=
  alru_cache (resolve_user_uncached net).

(** A run of calls, each with the network as it behaves at that moment. *)
Fixpoint resolve_all (calls : list ((string → http_outcome) * string)) (st : state) : state :=
  match calls with
  | [] => st
  | (net, h) :: calls' => resolve_all calls' (fst (resolve_user net st h))
  end.

End Resolver.

(** The entry of [h] holds [r], no entry before it has the key [h], and at
    most [n] entries are more recently used. *)
Definition cached_at (h : string) (r : option string) (n : nat)
  (c : list (string * option string)) : Prop :=
  ∃ pre post, c = pre ++ (h, r) :: post
              ∧ Forall (λ e, fst e ≠ h) pre ∧ (List.length pre ≤ n)%nat.

(** ** The bot: whisper store, expiration tasks and handlers *)

Module Bot.

(** A Telegram user as the handlers see it.  The class comes from aiogram. *)
Record User := mkUser {
  user_id : Z;
  username : option string;
  full_name : string;
}.

Global Instance User_eq_dec : EqDecision User.
Proof. solve_decision. Defined.

(** [u == v] on two users: aiogram compares their hashes, and the hash of a
    user is the account id, a number Python hashes to itself.  A user who
    changed handle or name is still the same user. *)
Definition user_eq (u v : User) : bool := (user_id u =? user_id v)%Z.

(** [User.mention]: the handle with its marker when there is a non-empty
    one, the full name otherwise. *)
Definition mention (u : User) : string :=
  match username u with
  | Some (String c n) => "@" +:+ String c n
  | _ => full_name u
  end.

(** A Python string object: [id()] of the object and its characters. *)
Record str_obj := mkStr {
  ob_id : N;
  ob_val : string;
}.

Global Instance str_obj_eq_dec : EqDecision str_obj.
Proof. solve_decision. Defined.

(** [WhisperEntry = namedtuple("WhisperEntry", ("sender", "recipient", "content"))] *)
Record WhisperEntry := mkWhisper {
  sender : User;
  recipient : string;
  content : str_obj;
}.

Global Instance WhisperEntry_eq_dec : EqDecision WhisperEntry.
Proof. solve_decision. Defined.

(** Where a suspended piece of code will continue.  Both frames are inside
    [_expire_whisper(id, in_seconds)], at [await asyncio.sleep(in_seconds)]:
    [TimerTask] is the task made by [asyncio.create_task] in the inline
    handler, [CallbackExpire] is the callback handler awaiting the coroutine
    directly, with its answer still to send. *)
Inductive frame :=
| TimerTask (id : string) (in_seconds : Z)
| CallbackExpire (id : string) (in_seconds : Z).

Definition frame_id (f : frame) : string :=
  match f with TimerTask id _ | CallbackExpire id _ => id end.

Inductive task_state :=
| Suspended (f : frame)
| Cancelled
| Finished
| Failed (e : exn).

Global Instance frame_eq_dec : EqDecision frame.
Proof. solve_decision. Defined.
Global Instance task_state_eq_dec : EqDecision task_state.
Proof. solve_decision. Defined.

(** The module globals [whispers] and [expiring_tasks], the tasks of the
    event loop the latter refers to, and the resolver's state. *)
Record state := mkBot {
  whispers : gmap string WhisperEntry;
  expiring_tasks : gmap string nat;
  tasks : gmap nat task_state;
  next_task : nat;
  resolver : Resolver.state;
}.

Definition init : state :=
  {| whispers := ∅; expiring_tasks := ∅; tasks := ∅; next_task := 0;
     resolver := Resolver.init |}.

(** What a handler sends back. *)
Inductive button :=
| CallbackButton (text data : string)
| UrlButton (text url : string).

Record article := mkArticle {
  art_id : string;
  art_title : string;
  art_text : string;
  art_keyboard : list (list button);
}.

Inductive reply :=
| CallbackAnswer (text : string) (cache_time : Z) (show_alert : bool)
| MessageAnswer (text : string)
| MessageReply (text : string)
| InlineAnswer (results : list article) (cache_time : Z) (is_personal : bool)
| Unhandled (e : exn).

Definition MSG_EXPIRED_OR_NONEXISTENT : string :=
  "⏲️🔔/❌ The message is expired or non-existent.".
Definition MSG_NEITHER : string :=
  "🚫 You are neither the sender nor recipient.".
Definition MSG_UNSUPPORTED : string := "❌ Unsupported Action ❌".
Definition MSG_EXPIRED_OK : string := "✅ Successfully expired.".

(** The authorization test of both [whisper_callback_handler] and
    [start_save_handler],
    [from_user.username != whisper.recipient and from_user != whisper.sender]:
    true when the request must be refused. *)
Definition neither (from_user : User) (whisper : WhisperEntry) : bool :=
  bool_decide (username from_user ≠ Some (recipient whisper))
  && negb (user_eq from_user (sender whisper)).

(** *** [expire_whisper]

    The synchronous part cancels and forgets the task registered for [id];
    the coroutine it returns is [_expire_whisper(id, in_seconds)]. *)

Definition cancel (ts : task_state) : task_state :=
  match ts with
  | Suspended _ => Cancelled
  | other => other
  end.

Definition expire_whisper (id : string) (in_seconds : Z) (st : state)
  : state * (string * Z) :=
  match expiring_tasks st !! id with
  | Some t =>
      ({| whispers := whispers st;
          expiring_tasks := delete id (expiring_tasks st);
          tasks := alter cancel t (tasks st);
          next_task := next_task st;
          resolver := resolver st |}, (id, in_seconds))
  | None => (st, (id, in_seconds))
  end.

(** Suspend a frame at its [asyncio.sleep]: it becomes a task of the loop. *)
Definition spawn (f : frame) (st : state) : state * nat :=
  ({| whispers := whispers st;
      expiring_tasks := expiring_tasks st;
      tasks := <[next_task st := Suspended f]> (tasks st);
      next_task := S (next_task st);
      resolver := resolver st |}, next_task st).

(** The rest of [_expire_whisper] once the sleep is over:
    [whispers.pop(id)], which raises [KeyError] on a missing key. *)
Definition pop_whisper (id : string) (st : state) : result (state * WhisperEntry) :=
  match whispers st !! id with
  | Some w =>
      Return ({| whispers := delete id (whispers st);
                 expiring_tasks := expiring_tasks st;
                 tasks := tasks st;
                 next_task := next_task st;
                 resolver := resolver st |}, w)
  | None => Raise KeyError
  end.

Definition set_task (t : nat) (ts : task_state) (st : state) : state :=
  {| whispers := whispers st;
     expiring_tasks := expiring_tasks st;
     tasks := <[t := ts]> (tasks st);
     next_task := next_task st;
     resolver := resolver st |}.

(** The event loop resumes task [t].  A cancelled or finished task never
    runs again. *)
Definition resume (t : nat) (st : state) : state * list reply :=
  match tasks st !! t with
  | Some (Suspended f) =>
      match pop_whisper (frame_id f) st with
      | Return (st1, _) =>
          (set_task t Finished st1,
           match f with
           | TimerTask _ _ => []
           | CallbackExpire _ _ => [CallbackAnswer MSG_EXPIRED_OK 1800 false]
           end)
      | Raise e => (set_task t (Failed e) st, [Unhandled e])
      end
  | _ => (st, [])
  end.

(** The texts shown to an authorized requester:
    [f"From {whisper.sender.mention} to @{whisper.recipient}:\n\n{whisper.content}"]
    in the callback handler and its variant in the deep-link handler. *)
Definition reveal_text (whisper : WhisperEntry) : string :=
  "From " +:+ mention (sender whisper) +:+ " to @" +:+ recipient whisper
  +:+ ":" +:+ Py.chr Py.LF +:+ Py.chr Py.LF +:+ ob_val (content whisper).

Definition save_text (whisper : WhisperEntry) : string :=
  "_Message from_ " +:+ mention (sender whisper) +:+ " _to_ @"
  +:+ recipient whisper +:+ ":" +:+ Py.chr Py.LF +:+ Py.chr Py.LF
  +:+ ob_val (content whisper).

(** *** [whisper_callback_handler]

    Runs up to the handler's end or up to the sleep inside
    [await expire_whisper(whisper_id)]; in the second case the third
    component names the task the handler continues as. *)
Definition whisper_callback_handler (from_user : User) (data : string)
  (st : state) : state * list reply * option nat :=
  match Py.split_char1 "|" data with
  | [action; whisper_id] =>
      match whispers st !! whisper_id with
      | None => (st, [CallbackAnswer MSG_EXPIRED_OR_NONEXISTENT 1800 false], None)
      | Some whisper =>
          if neither from_user whisper then
            (st, [CallbackAnswer MSG_NEITHER 1800 false], None)
          else if String.eqb action "REVEAL" then
            (st, [CallbackAnswer (reveal_text whisper) 30 true], None)
          else if String.eqb action "EXPIRE" then
            let '(st1, (id, s)) := expire_whisper whisper_id 0 st in
            let '(st2, t) := spawn (CallbackExpire id s) st1 in
            (st2, [], Some t)
          else (st, [CallbackAnswer MSG_UNSUPPORTED 1800 false], None)
      end
  | _ => (st, [Unhandled ValueError], None)
  end.

(** *** [start_save_handler], given the id matched by the deep link *)
Definition start_save_handler (from_user : User) (whisper_id : string)
  (st : state) : list reply :=
  match whispers st !! whisper_id with
  | None => [MessageReply MSG_EXPIRED_OR_NONEXISTENT]
  | Some whisper =>
      if neither from_user whisper then [MessageReply MSG_NEITHER]
      else [MessageAnswer (save_text whisper)]
  end.

(** *** [whisper_inline_handler] *)

Record InlineQuery := mkQuery {
  iq_from_user : User;
  iq_query : string;
}.

Inductive answer_outcome :=
| AnswerTrue              (* query.answer(...) returned True *)
| AnswerOther             (* it returned something else *)
| AnswerInvalidQueryID.   (* it raised InvalidQueryID *)

(** What the handler obtains from outside while it runs. *)
Record inline_env := mkEnv {
  bot_username : string;                  (* (await bot.get_me()).username *)
  net : string → Resolver.http_outcome;   (* the network, for resolve_user *)
  clock : N;                              (* int(now()) *)
  fresh_id : N;                           (* id(whisper) *)
  answer : answer_outcome;
}.

(** [f"WHISPER-{int(now()):x}-{id(whisper):x}"] *)
Definition make_whisper_id (now id : N) : string :=
  "WHISPER-" +:+ Py.format_x now +:+ "-" +:+ Py.format_x id.

Definition answer_inline (a : answer_outcome) (results : list article)
  (cache_time : Z) (is_personal : bool) : list reply :=
  match a with
  | AnswerInvalidQueryID => []
  | _ => [InlineAnswer results cache_time is_personal]
  end.

(** The [except ReadableException] branch: one article made of the triple. *)
Definition inline_error (a : answer_outcome) (e : string * string * string)
  : list reply :=
  let '(id, title, text) := e in
  answer_inline a [mkArticle id title text []] 3600 false.

Definition set_resolver (r : Resolver.state) (st : state) : state :=
  {| whispers := whispers st;
     expiring_tasks := expiring_tasks st;
     tasks := tasks st;
     next_task := next_task st;
     resolver := r |}.

Definition set_whisper (id : string) (w : WhisperEntry) (st : state) : state :=
  {| whispers := <[id := w]> (whispers st);
     expiring_tasks := expiring_tasks st;
     tasks := tasks st;
     next_task := next_task st;
     resolver := resolver st |}.

Definition set_expiring_task (id : string) (t : nat) (st : state) : state :=
  {| whispers := whispers st;
     expiring_tasks := <[id := t]> (expiring_tasks st);
     tasks := tasks st;
     next_task := next_task st;
     resolver := resolver st |}.

(** The text placed in the chat for a new whisper. *)
Definition confirmation_text (recipient_name recipient : string) : string :=
  "*Private Message*" +:+ Py.chr Py.LF +:+ "_To_ " +:+ recipient_name
  +:+ "(@" +:+ recipient +:+ ")," +:+ Py.chr Py.LF
  +:+ "expiring in 30 minutes.".

Definition whisper_articles (bot_username whisper_id recipient_name recipient : string)
  : list article :=
  let input_content := confirmation_text recipient_name recipient in
  let button_reveal := CallbackButton "🔎 Reveal" ("REVEAL|" +:+ whisper_id) in
  let button_save :=
    UrlButton "💾 Save"
      ("https://t.me/" +:+ bot_username +:+ "?start=SAVE_" +:+ whisper_id) in
  let button_expire := CallbackButton "🛑 Expire" ("EXPIRE|" +:+ whisper_id) in
  [ mkArticle (whisper_id +:+ "-1") "With Save button" input_content
      [[button_reveal; button_save; button_expire]];
    mkArticle (whisper_id +:+ "-2") "Without Save button" input_content
      [[button_reveal; button_expire]] ].

(** Lines 213 to 217: store the entry, then register the task that runs
    [expire_whisper(whisper_id, 15)]. *)
Definition store_whisper (whisper_id : string) (w : WhisperEntry) (st : state)
  : state :=
  let st1 := set_whisper whisper_id w st in
  let '(st2, (id, s)) := expire_whisper whisper_id 15 st1 in
  let '(st3, t) := spawn (TimerTask id s) st2 in
  set_expiring_task whisper_id t st3.

Definition whisper_inline_handler (query : InlineQuery) (env : inline_env)
  (st : state) : state * list reply :=
  let sender := iq_from_user query in
  if String.eqb (iq_query query) EmptyString then
    (st, inline_error (answer env)
           ("EMPTY_ARG", "ℹ️ Show Usage",
            "ℹ️ Usage: `@" +:+ bot_username env +:+ " @RECIPIENT message)`"))
  else
    match Py.split_maxsplit1 (iq_query query) with
    | [recipient; whisper] =>
        let recipient :=
          if Py.startswith recipient "@" then Py.tail1 recipient else recipient in
        let '(rs, res) := Resolver.resolve_user (net env) (resolver st) recipient in
        let st := set_resolver rs st in
        match res with
        | Raise e => (st, [Unhandled e])
        | Return None =>
            (st, inline_error (answer env)
                   ("INVALID_USERNAME", "❌ Invalid Username", "❌ Invalid Username"))
        | Return (Some recipient_name) =>
            let whisper_id := make_whisper_id (clock env) (fresh_id env) in
            let results :=
              whisper_articles (bot_username env) whisper_id recipient_name recipient in
            let out := answer_inline (answer env) results 3 true in
            match answer env with
            | AnswerTrue =>
                (store_whisper whisper_id
                   (mkWhisper sender recipient (mkStr (fresh_id env) whisper)) st,
                 out)
            | _ => (st, out)
            end
        end
    | _ =>
        (st, inline_error (answer env)
               ("USAGE_ERROR", "❌ Usage Error",
                "❌ Usage Error" +:+ Py.chr Py.LF +:+ "Usage: `@"
                +:+ bot_username env +:+ " @RECIPIENT message`"))
    end.

(** *** The event loop *)

Inductive event :=
| Inline (query : InlineQuery) (env : inline_env)
| Callback (from_user : User) (data : string)
| StartSave (from_user : User) (whisper_id : string)
| Wake (t : nat).

Definition step (st : state) (e : event) : state * list reply :=
  match e with
  | Inline q env => whisper_inline_handler q env st
  | Callback u data =>
      let '(st1, out, _) := whisper_callback_handler u data st in (st1, out)
  | StartSave u id => (st, start_save_handler u id st)
  | Wake t => resume t st
  end.

Fixpoint run (st : state) (es : list event) : state * list reply :=
  match es with
  | [] => (st, [])
  | e :: es' =>
      let '(st1, out1) := step st e in
      let '(st2, out2) := run st1 es' in
      (st2, out1 ++ out2)
  end.

Definition reachable (st : state) : Prop := ∃ es, fst (run init es) = st.

(** A callback handled with nothing else running in between: the handler is
    resumed as soon as it suspends. *)
Definition callback_alone (from_user : User) (data : string) (st : state)
  : state * list reply :=
  match whisper_callback_handler from_user data st with
  | (st1, out, Some t) =>
      let '(st2, out2) := resume t st1 in (st2, out ++ out2)
  | (st1, out, None) => (st1, out)
  end.

End Bot.

(** ** The vocabulary of the specification *)

(** The requester is the sender, that is the same account, or the
    requester's own handle is the stored recipient handle. *)
Definition authorized (requester : Bot.User) (w : Bot.WhisperEntry) : Prop :=
  Bot.user_id requester = Bot.user_id (Bot.sender w)
  ∨ Bot.username requester = Some (Bot.recipient w).

Definition REVEAL (id : string) : string := "REVEAL|" +:+ id.
Definition EXPIRE (id : string) : string := "EXPIRE|" +:+ id.

(** The answers of the callback handler. *)
Definition revealed (w : Bot.WhisperEntry) : Bot.reply :=
  Bot.CallbackAnswer (Bot.reveal_text w) 30 true.
Definition expired_ok : Bot.reply :=
  Bot.CallbackAnswer Bot.MSG_EXPIRED_OK 1800 false.
Definition not_found_or_expired : Bot.reply :=
  Bot.CallbackAnswer Bot.MSG_EXPIRED_OR_NONEXISTENT 1800 false.
Definition unauthorized : Bot.reply :=
  Bot.CallbackAnswer Bot.MSG_NEITHER 1800 false.

(** The event is a creation that draws the id [id]. *)
Definition creates (id : string) (e : Bot.event) : Prop :=
  match e with
  | Bot.Inline _ env => Bot.make_whisper_id (Bot.clock env) (Bot.fresh_id env) = id
  | _ => False
  end.

(** Every timer task that is still asleep is the one [expiring_tasks]
    registers for its id. *)
Definition timers_registered (st : Bot.state) : Prop :=
  ∀ t id s,
    Bot.tasks st !! t = Some (Bot.Suspended (Bot.TimerTask id s)) →
    Bot.expiring_tasks st !! id = Some t.

(** Task numbers from [next_task] on are unused. *)
Definition tasks_below_next (st : Bot.state) : Prop :=
  ∀ t, (Bot.next_task st ≤ t)%nat → Bot.tasks st !! t = None.

(** Every stored id was drawn for the text object stored under it. *)
Definition ids_from_contents (st : Bot.state) : Prop :=
  ∀ k w, Bot.whispers st !! k = Some w →
         ∃ t, k = Bot.make_whisper_id t (Bot.ob_id (Bot.content w)).

(** The text object of a creation is none of the text objects stored at that
    moment.  Python gives two objects that are alive together two different
    [id()] numbers, and the stored texts are alive; so the condition holds
    whenever the text of the creation is a newly made object.  It is a
    condition on the creation all the same, and no promise of Python: CPython
    keeps one shared object for each one-character text below code point
    256, and a whisper of one such character has the [id()] of every other
    whisper of that character, stored or not. *)
Definition fresh_object (st : Bot.state) (a : N) : Prop :=
  ∀ k w, Bot.whispers st !! k = Some w → Bot.ob_id (Bot.content w) ≠ a.

(** ** A small cast and a few states, for concrete runs *)

Module Scenario.
Import Bot.

Definition alice : User := mkUser 1001 (Some "alice") "Alice".
Definition bob : User := mkUser 1002 (Some "bob") "Bob".
Definition carol : User := mkUser 1003 (Some "carol") "Carol".
Definition eve : User := mkUser 1004 None "Eve".
(** Same letters as bob's handle, other case. *)
Definition bob_upper : User := mkUser 1005 (Some "Bob") "Robert".
(** Alice's account after she changed her handle and her name. *)
Definition alice_renamed : User := mkUser 1001 (Some "alice2") "Alice L.".

(** A profile page showing [name]. *)
Definition page (name : string) : Resolver.http_outcome :=
  Resolver.Response 200
    (Return ("<html><body>" +:+ Py.RE_OPEN +:+ name +:+ "</div></body></html>")).

Definition online (url : string) : Resolver.http_outcome :=
  if String.eqb url "https://t.me/bob" then page "Bob"
  else if String.eqb url "https://t.me/alice" then page "Alice"
  else if String.eqb url "https://t.me/carol" then page "Carol"
  else Resolver.Response 200 (Return "<html><body>Telegram</body></html>").

Definition offline (url : string) : Resolver.http_outcome :=
  Resolver.GetRaises ClientError.

(** As many calls as the cache has places, each for another handle. *)
Definition crowd : list ((string → Resolver.http_outcome) * string) :=
  (λ n : nat, (online, "user" +:+ pretty n)) <$> seq 0 Resolver.maxsize.

(** Alice whispers to bob; the clock reads 0x671db480 and the text object
    sits at address 0x7f544a44c000. *)
Definition q_alice : InlineQuery := mkQuery alice "@bob the code is 4711".
Definition env_alice : inline_env :=
  mkEnv "lowvoicebot" online 1730000000 140000000000000 AnswerTrue.

(** Carol whispers to alice in the same second, and her text object is
    given the address alice's text had before it was freed. *)
Definition q_carol : InlineQuery := mkQuery carol "@alice lunch?".
Definition env_carol : inline_env :=
  mkEnv "lowvoicebot" online 1730000000 140000000000000 AnswerTrue.

Definition W1 : string := "WHISPER-671db480-7f544a44c000".

(** Carol whispers to alice while alice's whisper is stored; her text is
    another object, 64 bytes further. *)
Definition env_carol_apart : inline_env :=
  mkEnv "lowvoicebot" online 1730000000 140000000000064 AnswerTrue.
Definition W2 : string := "WHISPER-671db480-7f544a44c040".

(** A query whose recipient and text are separated by a no-break space. *)
Definition q_nbsp : InlineQuery :=
  mkQuery alice ("@bob" +:+ Py.NBSP +:+ "the code is 4711").

(** Two whispers of the one character k in the same second.  Both texts are
    the one shared object CPython keeps for that character. *)
Definition q_alice_k : InlineQuery := mkQuery alice "@bob k".
Definition q_carol_k : InlineQuery := mkQuery carol "@alice k".
Definition env_k : inline_env :=
  mkEnv "lowvoicebot" online 1730000000 9801416 AnswerTrue.
Definition WK : string := make_whisper_id 1730000000 9801416.

Definition w_alice : WhisperEntry :=
  mkWhisper alice "bob" (mkStr 140000000000000 "the code is 4711").
Definition w_carol : WhisperEntry :=
  mkWhisper carol "alice" (mkStr 140000000000000 "lunch?").

(** The state once alice's whisper is stored. *)
Definition live : state := fst (run init [Inline q_alice env_alice]).

(** Alice has expired her whisper again, the handler running alone. *)
Definition expired : state := fst (callback_alone alice (EXPIRE W1) live).

(** Nobody touched the whisper and its timer has fired. *)
Definition timed_out : state := fst (step live (Wake 0)).

(** Alice's whisper and carol's whisper are both stored. *)
Definition two_live : state :=
  fst (run init [Inline q_alice env_alice; Inline q_carol env_carol_apart]).

End Scenario.

(** ** The rest of the module: text helpers, commands, start-up *)

Module Text.

(** Whether a whitespace character occurs in [s]. *)
Fixpoint has_space (s : string) : bool :=
  match s with
  | EmptyString => false
  | String c s' => Py.starts_with_space s || has_space s'
  end.

(** Whether [s] is made of whitespace only. *)
Definition only_space (s : string) : bool :=
  match Py.lstrip s with
  | EmptyString => true
  | _ => false
  end.

(** [s.rstrip()]: cut where nothing but whitespace follows. *)
Fixpoint rstrip (s : string) : string :=
  match s with
  | EmptyString => EmptyString
  | String c s' => if only_space s then EmptyString else String c (rstrip s')
  end.

(** [s.strip()] *)
Definition strip (s : string) : string := rstrip (Py.lstrip s).

(** The longest prefix of [s] without line feed: what a greedy [.+] takes. *)
Fixpoint take_line (s : string) : string :=
  match s with
  | EmptyString => EmptyString
  | String c s' => if Ascii.eqb c Py.LF then EmptyString else String c (take_line s')
  end.

End Text.

Module Commands.

(** [re.compile(r"SAVE\_(?P<whisper_id>.+)").match(payload)], the test of
    [CommandStart] on the arguments of [/start]: the payload starts with
    [SAVE_], and the group is the non-empty rest up to the first line feed. *)
Definition deep_link_match (payload : string) : option string :=
  rest ← Py.strip_prefix "SAVE_" payload;
  match Text.take_line rest with
  | EmptyString => None
  | whisper_id => Some whisper_id
  end.

(** What [start_handler] does with the arguments [message.get_args()]. *)
Inductive start_outcome :=
| Welcome (text button switch_inline_query : string)
| SkipHandler.

Definition start_handler (args : string) : start_outcome :=
  if String.eqb args EmptyString then
    Welcome "Low Voice Bot helps send *private ️messages* in public groups."
      "Start" EmptyString
  else SkipHandler.

(** [ping_handler] *)
Definition ping_handler : Bot.reply := Bot.MessageReply "Pong".

(** A [/start] message going through the handlers in the order of their
    registration, as the comment above [start_handler] describes it: the
    generic handler first, and after its [SkipHandler] the handler behind
    the deep-link filter. *)
Inductive start_result :=
| Welcomed (text button switch_inline_query : string)
| Saved (out : list Bot.reply)
| NotHandled.

Definition on_start (from_user : Bot.User) (args : string) (st : Bot.state)
  : start_result :=
  match start_handler args with
  | Welcome text button q => Welcomed text button q
  | SkipHandler =>
      match deep_link_match args with
      | Some whisper_id => Saved (Bot.start_save_handler from_user whisper_id st)
      | None => NotHandled
      end
  end.

End Commands.

Module Startup.

Inductive startup_error :=
| BotTokenUnspecified
| OSError.   (* open("./.BOT_TOKEN") or the read failed *)

(** Lines 79 to 84: the token from the environment, else from the file.
    [environ] is [os.environ.get("BOT_TOKEN")], [file] what [f.read()]
    returns for [./.BOT_TOKEN] when the file can be opened and read. *)
Definition load_bot_token (environ : option string) (file : option string)
  : startup_error + string :=
  match environ with
  | Some (String c t) => inr (String c t)
  | _ =>
      match file with
      | None => inl OSError
      | Some text =>
          match Text.strip text with
          | EmptyString => inl BotTokenUnspecified
          | bot_token => inr bot_token
          end
      end
  end.

End Startup.

(** ** Invariants of the reachable states *)

(** A registered handle refers to a known task, and if that task is asleep
    it is the 15-second timer of the id it is registered for. *)
Definition handles_point_home (st : Bot.state) : Prop :=
  ∀ id t, Bot.expiring_tasks st !! id = Some t →
    is_Some (Bot.tasks st !! t)
    ∧ ∀ f, Bot.tasks st !! t = Some (Bot.Suspended f) → f = Bot.TimerTask id 15.

(** Timers sleep 15 seconds, explicit expires 0 seconds. *)
Definition frames_as_armed (st : Bot.state) : Prop :=
  ∀ t f, Bot.tasks st !! t = Some (Bot.Suspended f) →
    f = Bot.TimerTask (Bot.frame_id f) 15
    ∨ f = Bot.CallbackExpire (Bot.frame_id f) 0.

(** Every stored whisper has a suspended task that is going to pop it. *)
Definition removal_pending (st : Bot.state) : Prop :=
  ∀ id w, Bot.whispers st !! id = Some w →
    ∃ t f, Bot.tasks st !! t = Some (Bot.Suspended f) ∧ Bot.frame_id f = id.

Definition well_formed (st : Bot.state) : Prop :=
  timers_registered st ∧ tasks_below_next st ∧ handles_point_home st
  ∧ frames_as_armed st ∧ removal_pending st.

(** The cache holds at most [maxsize] entries, one per handle. *)
Definition cache_bounded (st : Resolver.state) : Prop :=
  (List.length (Resolver.cache st) ≤ Resolver.maxsize)%nat
  ∧ NoDup (fst <$> Resolver.cache st).

(** ** Facts about the callback and deep-link handlers *)

Section Handlers.
Import Bot.

Lemma string_app_assoc (a b c : string) : (a +:+ b) +:+ c = a +:+ (b +:+ c).
Proof.
  induction a as [|x a IH]; [reflexivity|].
  change (String x ((a +:+ b) +:+ c) = String x (a +:+ (b +:+ c))).
  by rewrite IH.
Qed.

Lemma split_REVEAL id : Py.split_char1 "|" (REVEAL id) = ["REVEAL"; id].
Proof. reflexivity. Qed.

Lemma split_EXPIRE id : Py.split_char1 "|" (EXPIRE id) = ["EXPIRE"; id].
Proof. reflexivity. Qed.

Lemma neither_false u w : neither u w = false ↔ authorized u w.
Proof.
  unfold neither, authorized, user_eq.
  rewrite andb_false_iff, negb_false_iff, bool_decide_eq_false, Z.eqb_eq.
  split.
  - intros [H|H]; [right|left]; [by apply dec_stable|done].
  - intros [H|H]; [right|left]; auto.
Qed.

Lemma neither_true u w : neither u w = true ↔ ¬ authorized u w.
Proof.
  rewrite <- neither_false. destruct (neither u w); split; congruence.
Qed.

Lemma expire_whisper_whispers id s st :
  whispers (fst (expire_whisper id s st)) = whispers st.
Proof. unfold expire_whisper. by destruct (expiring_tasks st !! id). Qed.

Lemma expire_whisper_coro id s st : snd (expire_whisper id s st) = (id, s).
Proof. unfold expire_whisper. by destruct (expiring_tasks st !! id). Qed.

Lemma expire_whisper_next id s st :
  next_task (fst (expire_whisper id s st)) = next_task st.
Proof. unfold expire_whisper. by destruct (expiring_tasks st !! id). Qed.

Lemma expire_whisper_forgets id s st :
  expiring_tasks (fst (expire_whisper id s st)) = delete id (expiring_tasks st).
Proof.
  unfold expire_whisper. destruct (expiring_tasks st !! id) eqn:E; simpl; [done|].
  symmetry. by apply delete_id.
Qed.

(** A reveal on a live record: one answer, and the state is the one before. *)
Lemma reveal_live st id w u :
  whispers st !! id = Some w →
  callback_alone u (REVEAL id) st
  = (st, [if neither u w then unauthorized else revealed w]).
Proof.
  intros Hw. unfold callback_alone, whisper_callback_handler.
  rewrite split_REVEAL, Hw. by destruct (neither u w).
Qed.

(** An expire on a live record, run without interruption. *)
Lemma expire_live st id w u :
  whispers st !! id = Some w →
  snd (callback_alone u (EXPIRE id) st)
  = [if neither u w then unauthorized else expired_ok]
  ∧ whispers (fst (callback_alone u (EXPIRE id) st)) !! id
    = (if neither u w then Some w else None).
Proof.
  intros Hw. unfold callback_alone, whisper_callback_handler.
  rewrite split_EXPIRE, Hw. destruct (neither u w); [done|].
  simpl.
  destruct (expire_whisper id 0 st) as [st1 [id' s]] eqn:E.
  pose proof (expire_whisper_whispers id 0 st) as Hws.
  pose proof (expire_whisper_coro id 0 st) as Hco.
  rewrite E in Hws, Hco. simpl in Hws, Hco. injection Hco as -> ->.
  unfold spawn, resume. simpl. rewrite lookup_insert_eq.
  unfold pop_whisper. simpl. rewrite Hws, Hw. simpl.
  split; [done|]. apply lookup_delete_eq.
Qed.

(** What a granted expire, run without interruption, does to the state: the
    record is removed, the registration of its timer is removed, and no
    other record or registration is touched. *)
Lemma expire_granted st id w u :
  whispers st !! id = Some w → neither u w = false →
  whispers (fst (callback_alone u (EXPIRE id) st)) = delete id (whispers st)
  ∧ expiring_tasks (fst (callback_alone u (EXPIRE id) st))
    = delete id (expiring_tasks st).
Proof.
  intros Hw Hn. unfold callback_alone, whisper_callback_handler.
  rewrite split_EXPIRE, Hw, Hn. simpl.
  destruct (expire_whisper id 0 st) as [st1 [id' s]] eqn:E.
  pose proof (expire_whisper_whispers id 0 st) as Hws.
  pose proof (expire_whisper_coro id 0 st) as Hco.
  pose proof (expire_whisper_forgets id 0 st) as Hfo.
  rewrite E in Hws, Hco, Hfo. simpl in Hws, Hco, Hfo. injection Hco as -> ->.
  unfold spawn, resume. simpl. rewrite lookup_insert_eq.
  unfold pop_whisper. simpl. rewrite Hws, Hw. simpl.
  by rewrite Hfo.
Qed.

(** Any request on an id that is not in the store. *)
Lemma callback_absent st id u action :
  whispers st !! id = None →
  Py.split_char1 "|" action = [action] →
  callback_alone u (action +:+ "|" +:+ id) st = (st, [not_found_or_expired]).
Proof.
  intros Hw Hsplit. unfold callback_alone, whisper_callback_handler.
  assert (Py.split_char1 "|" (action +:+ "|" +:+ id) = [action; id]) as ->.
  { clear Hw. induction action as [|c a IH]; [done|].
    simpl in *. destruct (Ascii.eqb c "|"); [done|].
    destruct (Py.split_char1 "|" a) as [|x [|y l]] eqn:E; simplify_eq.
    by rewrite IH. }
  by rewrite Hw.
Qed.

Lemma reveal_absent st id u :
  whispers st !! id = None →
  callback_alone u (REVEAL id) st = (st, [not_found_or_expired]).
Proof. intros. by apply (callback_absent st id u "REVEAL"). Qed.

Lemma expire_absent st id u :
  whispers st !! id = None →
  callback_alone u (EXPIRE id) st = (st, [not_found_or_expired]).
Proof. intros. by apply (callback_absent st id u "EXPIRE"). Qed.

(** A requester who is neither sender nor recipient, on a live record. *)
Lemma refused_live st id w u :
  whispers st !! id = Some w → ¬ authorized u w →
  callback_alone u (REVEAL id) st = (st, [unauthorized])
  ∧ callback_alone u (EXPIRE id) st = (st, [unauthorized])
  ∧ start_save_handler u id st = [MessageReply MSG_NEITHER].
Proof.
  intros Hw Hu. apply neither_true in Hu.
  unfold callback_alone, whisper_callback_handler, start_save_handler.
  by rewrite split_REVEAL, split_EXPIRE, Hw, Hu.
Qed.

Lemma texts_differ :
  MSG_NEITHER ≠ MSG_EXPIRED_OR_NONEXISTENT ∧ MSG_NEITHER ≠ MSG_EXPIRED_OK
  ∧ MSG_EXPIRED_OK ≠ MSG_EXPIRED_OR_NONEXISTENT.
Proof. repeat split; discriminate. Qed.

End Handlers.

(** ** Authorization *)

(** C1. For a live record with sender S and recipient handle R, a reveal, an
    expire or a save request succeeds exactly when the requester is the
    account S (compared by account id, as aiogram compares users, so under
    any handle or name) or the requester's own handle is the string R.
    Success is more than the answer text: a granted reveal answers with the
    whisper and leaves the state as it was, and a granted expire removes
    that record and the registration of its timer and nothing else; the
    record is gone after the expire exactly when the requester is
    authorized.  Every other requester gets the refusal and the state is
    left as it was. *)
Theorem authorization_rule st id w u :
  Bot.whispers st !! id = Some w →
  (snd (Bot.callback_alone u (REVEAL id) st) = [revealed w] ↔ authorized u w)
  ∧ (snd (Bot.callback_alone u (EXPIRE id) st) = [expired_ok] ↔ authorized u w)
  ∧ (Bot.whispers (fst (Bot.callback_alone u (EXPIRE id) st)) !! id = None
     ↔ authorized u w)
  ∧ (Bot.start_save_handler u id st = [Bot.MessageAnswer (Bot.save_text w)]
     ↔ authorized u w)
  ∧ (authorized u w →
     Bot.callback_alone u (REVEAL id) st = (st, [revealed w])
     ∧ Bot.whispers (fst (Bot.callback_alone u (EXPIRE id) st))
       = delete id (Bot.whispers st)
     ∧ Bot.expiring_tasks (fst (Bot.callback_alone u (EXPIRE id) st))
       = delete id (Bot.expiring_tasks st))
  ∧ (¬ authorized u w →
     Bot.callback_alone u (REVEAL id) st = (st, [unauthorized])
     ∧ Bot.callback_alone u (EXPIRE id) st = (st, [unauthorized])
     ∧ Bot.start_save_handler u id st = [Bot.MessageReply Bot.MSG_NEITHER]).
Proof.
  intros Hw.
  rewrite (reveal_live st id w u Hw).
  destruct (expire_live st id w u Hw) as [-> ->].
  unfold Bot.start_save_handler. rewrite Hw.
  destruct (Bot.neither u w) eqn:Hn.
  - apply neither_true in Hn.
    destruct (refused_live st id w u Hw Hn) as (_ & He & _).
    split; [done|]. split; [done|]. split; [done|]. split; [done|].
    split; [done|]. intros _. split; [done|]. split; [exact He|done].
  - destruct (expire_granted st id w u Hw Hn) as [Hs Ht].
    apply neither_false in Hn.
    split; [done|]. split; [done|]. split; [done|]. split; [done|].
    split; [|done]. intros _. split; [done|]. split; [exact Hs|exact Ht].
Qed.

(** The sender of W1 asks under a new handle and a new name. *)
Lemma authorization_rule_witness :
  let u := Scenario.alice_renamed in
  let w := Scenario.w_alice in
  let st := Scenario.live in
  let id := Scenario.W1 in
  (snd (Bot.callback_alone u (REVEAL id) st) = [revealed w] ↔ authorized u w)
  ∧ (snd (Bot.callback_alone u (EXPIRE id) st) = [expired_ok] ↔ authorized u w)
  ∧ (Bot.whispers (fst (Bot.callback_alone u (EXPIRE id) st)) !! id = None
     ↔ authorized u w)
  ∧ (Bot.start_save_handler u id st = [Bot.MessageAnswer (Bot.save_text w)]
     ↔ authorized u w)
  ∧ (authorized u w →
     Bot.callback_alone u (REVEAL id) st = (st, [revealed w])
     ∧ Bot.whispers (fst (Bot.callback_alone u (EXPIRE id) st))
       = delete id (Bot.whispers st)
     ∧ Bot.expiring_tasks (fst (Bot.callback_alone u (EXPIRE id) st))
       = delete id (Bot.expiring_tasks st))
  ∧ (¬ authorized u w →
     Bot.callback_alone u (REVEAL id) st = (st, [unauthorized])
     ∧ Bot.callback_alone u (EXPIRE id) st = (st, [unauthorized])
     ∧ Bot.start_save_handler u id st = [Bot.MessageReply Bot.MSG_NEITHER]).
Proof.
  apply (authorization_rule Scenario.live Scenario.W1 Scenario.w_alice
           Scenario.alice_renamed).
  vm_compute. reflexivity.
Defined.

(** The three kinds of requester on the live whisper W1, which alice sent to
    the handle bob: alice under a new handle and name is let in, the holder
    of the handle bob is let in, the holder of the handle Bob is not. *)
Example renamed_sender_is_let_in :
  authorized Scenario.alice_renamed Scenario.w_alice
  ∧ Scenario.alice_renamed ≠ Scenario.alice
  ∧ Bot.callback_alone Scenario.alice_renamed (REVEAL Scenario.W1) Scenario.live
    = (Scenario.live, [revealed Scenario.w_alice])
  ∧ Bot.start_save_handler Scenario.alice_renamed Scenario.W1 Scenario.live
    = [Bot.MessageAnswer (Bot.save_text Scenario.w_alice)]
  ∧ snd (Bot.callback_alone Scenario.alice_renamed (EXPIRE Scenario.W1)
           Scenario.live) = [expired_ok]
  ∧ Bot.whispers (fst (Bot.callback_alone Scenario.alice_renamed
                         (EXPIRE Scenario.W1) Scenario.live)) !! Scenario.W1
    = None.
Proof.
  split; [by left|]. split; [discriminate|].
  repeat split; vm_compute; reflexivity.
Qed.

Example handle_match_is_exact :
  authorized Scenario.bob Scenario.w_alice
  ∧ ¬ authorized Scenario.bob_upper Scenario.w_alice
  ∧ snd (Bot.callback_alone Scenario.bob (REVEAL Scenario.W1) Scenario.live)
    = [revealed Scenario.w_alice]
  ∧ Bot.callback_alone Scenario.bob_upper (REVEAL Scenario.W1) Scenario.live
    = (Scenario.live, [unauthorized])
  ∧ Bot.callback_alone Scenario.bob_upper (EXPIRE Scenario.W1) Scenario.live
    = (Scenario.live, [unauthorized])
  ∧ Bot.start_save_handler Scenario.bob_upper Scenario.W1 Scenario.live
    = [Bot.MessageReply Bot.MSG_NEITHER].
Proof.
  split; [by right|]. split; [intros [H|H]; discriminate H|].
  repeat split; vm_compute; reflexivity.
Qed.

(** ** What a refused requester is told *)

(** C2, as the code contradicts it. Eve is neither sender nor recipient of
    the live whisper W1. Asking for W1 where it is stored and asking for it
    where it never existed give her two different answers. *)
Lemma refusal_reveals_existence :
  Bot.whispers Scenario.live !! Scenario.W1 = Some Scenario.w_alice
  ∧ ¬ authorized Scenario.eve Scenario.w_alice
  ∧ Bot.whispers Bot.init !! Scenario.W1 = None
  ∧ snd (Bot.callback_alone Scenario.eve (REVEAL Scenario.W1) Scenario.live)
    ≠ snd (Bot.callback_alone Scenario.eve (REVEAL Scenario.W1) Bot.init).
Proof.
  split; [by vm_compute|].
  split; [intros [H|H]; discriminate H|].
  split; [done|].
  vm_compute. discriminate.
Qed.

(** C2, amended. An id that never existed and an id that has expired are
    answered with one and the same text, whoever asks, authorized for the
    former record or not; an id that is stored is answered to a requester
    who is neither sender nor recipient with another fixed text, different
    from the first. *)
Theorem denial_texts st_never st_live id w u0 u :
  Bot.whispers st_never !! id = None →
  Bot.whispers st_live !! id = Some w →
  authorized u0 w →
  let st_expired := fst (Bot.callback_alone u0 (EXPIRE id) st_live) in
  (∀ v,
     snd (Bot.callback_alone v (REVEAL id) st_never) = [not_found_or_expired]
     ∧ snd (Bot.callback_alone v (EXPIRE id) st_never) = [not_found_or_expired]
     ∧ Bot.start_save_handler v id st_never
       = [Bot.MessageReply Bot.MSG_EXPIRED_OR_NONEXISTENT])
  ∧ (∀ v,
       snd (Bot.callback_alone v (REVEAL id) st_expired) = [not_found_or_expired]
       ∧ snd (Bot.callback_alone v (EXPIRE id) st_expired)
         = [not_found_or_expired]
       ∧ Bot.start_save_handler v id st_expired
         = [Bot.MessageReply Bot.MSG_EXPIRED_OR_NONEXISTENT])
  ∧ (¬ authorized u w →
     snd (Bot.callback_alone u (REVEAL id) st_live) = [unauthorized]
     ∧ snd (Bot.callback_alone u (EXPIRE id) st_live) = [unauthorized]
     ∧ Bot.start_save_handler u id st_live = [Bot.MessageReply Bot.MSG_NEITHER])
  ∧ Bot.MSG_NEITHER ≠ Bot.MSG_EXPIRED_OR_NONEXISTENT.
Proof.
  intros Hnever Hlive Hu0 st_expired.
  assert (Bot.whispers st_expired !! id = None) as Hexp.
  { destruct (expire_live st_live id w u0 Hlive) as [_ H].
    apply neither_false in Hu0. by rewrite Hu0 in H. }
  split; [|split; [|split]].
  - intros v. split; [by rewrite reveal_absent|].
    split; [by rewrite expire_absent|].
    unfold Bot.start_save_handler. by rewrite Hnever.
  - intros v. split; [by rewrite reveal_absent|].
    split; [by rewrite expire_absent|].
    unfold Bot.start_save_handler. by rewrite Hexp.
  - intros Hu.
    destruct (refused_live st_live id w u Hlive Hu) as (Hr & He & Hs).
    split; [by rewrite Hr|]. split; [by rewrite He|done].
  - discriminate.
Qed.

(** Bob, the recipient, has expired W1.  Eve, a stranger, and alice, the
    sender, are told the same about the expired id and about an id that
    never was; eve is told something else while W1 is stored. *)
Lemma denial_texts_witness :
  let st_expired :=
    fst (Bot.callback_alone Scenario.bob (EXPIRE Scenario.W1) Scenario.live) in
  (snd (Bot.callback_alone Scenario.eve (REVEAL Scenario.W1) Bot.init)
   = [not_found_or_expired]
   ∧ snd (Bot.callback_alone Scenario.eve (EXPIRE Scenario.W1) Bot.init)
     = [not_found_or_expired]
   ∧ Bot.start_save_handler Scenario.eve Scenario.W1 Bot.init
     = [Bot.MessageReply Bot.MSG_EXPIRED_OR_NONEXISTENT])
  ∧ (snd (Bot.callback_alone Scenario.alice (REVEAL Scenario.W1) Bot.init)
     = [not_found_or_expired]
     ∧ snd (Bot.callback_alone Scenario.alice (EXPIRE Scenario.W1) Bot.init)
       = [not_found_or_expired]
     ∧ Bot.start_save_handler Scenario.alice Scenario.W1 Bot.init
       = [Bot.MessageReply Bot.MSG_EXPIRED_OR_NONEXISTENT])
  ∧ (snd (Bot.callback_alone Scenario.eve (REVEAL Scenario.W1) st_expired)
     = [not_found_or_expired]
     ∧ snd (Bot.callback_alone Scenario.eve (EXPIRE Scenario.W1) st_expired)
       = [not_found_or_expired]
     ∧ Bot.start_save_handler Scenario.eve Scenario.W1 st_expired
       = [Bot.MessageReply Bot.MSG_EXPIRED_OR_NONEXISTENT])
  ∧ (snd (Bot.callback_alone Scenario.alice (REVEAL Scenario.W1) st_expired)
     = [not_found_or_expired]
     ∧ snd (Bot.callback_alone Scenario.alice (EXPIRE Scenario.W1) st_expired)
       = [not_found_or_expired]
     ∧ Bot.start_save_handler Scenario.alice Scenario.W1 st_expired
       = [Bot.MessageReply Bot.MSG_EXPIRED_OR_NONEXISTENT])
  ∧ (snd (Bot.callback_alone Scenario.eve (REVEAL Scenario.W1) Scenario.live)
     = [unauthorized]
     ∧ snd (Bot.callback_alone Scenario.eve (EXPIRE Scenario.W1) Scenario.live)
       = [unauthorized]
     ∧ Bot.start_save_handler Scenario.eve Scenario.W1 Scenario.live
       = [Bot.MessageReply Bot.MSG_NEITHER])
  ∧ Bot.MSG_NEITHER ≠ Bot.MSG_EXPIRED_OR_NONEXISTENT.
Proof.
  intros st_expired.
  destruct (denial_texts Bot.init Scenario.live Scenario.W1 Scenario.w_alice
              Scenario.bob Scenario.eve) as (Hn & He & Hl & Hd).
  - reflexivity.
  - vm_compute. reflexivity.
  - right. reflexivity.
  - split; [exact (Hn Scenario.eve)|]. split; [exact (Hn Scenario.alice)|].
    split; [exact (He Scenario.eve)|]. split; [exact (He Scenario.alice)|].
    split; [|exact Hd].
    apply Hl. intros [H|H]; discriminate H.
Defined.

(** ** Reveal leaves the store alone *)

(** C6. A reveal, granted or refused, returns the state it was given: the
    record, its task and everything else are untouched, so any later reveal
    of the same id is answered as it would have been without the first one.
    A granted reveal answers with the text that ends in the stored content. *)
Theorem reveal_non_destructive st id u :
  fst (Bot.callback_alone u (REVEAL id) st) = st
  ∧ snd (Bot.step st (Bot.Callback u (REVEAL id)))
    = snd (Bot.callback_alone u (REVEAL id) st)
  ∧ fst (Bot.step st (Bot.Callback u (REVEAL id))) = st
  ∧ (∀ u', Bot.callback_alone u' (REVEAL id)
             (fst (Bot.callback_alone u (REVEAL id) st))
           = Bot.callback_alone u' (REVEAL id) st)
  ∧ (∀ w, Bot.whispers st !! id = Some w → authorized u w →
          snd (Bot.callback_alone u (REVEAL id) st) = [revealed w]
          ∧ ∃ header, Bot.reveal_text w
                      = header +:+ Bot.ob_val (Bot.content w)).
Proof.
  assert (Bot.whisper_callback_handler u (REVEAL id) st
          = (st, snd (Bot.callback_alone u (REVEAL id) st), None)) as Hh.
  { unfold Bot.callback_alone, Bot.whisper_callback_handler.
    rewrite split_REVEAL.
    destruct (Bot.whispers st !! id) as [w|]; [|done].
    by destruct (Bot.neither u w). }
  assert (fst (Bot.callback_alone u (REVEAL id) st) = st) as Hst.
  { unfold Bot.callback_alone at 1. by rewrite Hh. }
  split; [done|]. split; [simpl; by rewrite Hh|].
  split; [simpl; by rewrite Hh|].
  split; [intros u'; by rewrite Hst|].
  intros w Hw Hu. rewrite (reveal_live st id w u Hw).
  apply neither_false in Hu. rewrite Hu. split; [done|].
  unfold Bot.reveal_text.
  exists ("From " +:+ Bot.mention (Bot.sender w) +:+ " to @" +:+ Bot.recipient w
          +:+ ":" +:+ Py.chr Py.LF +:+ Py.chr Py.LF).
  by rewrite !string_app_assoc.
Qed.

Lemma reveal_non_destructive_witness :
  snd (Bot.callback_alone Scenario.bob (REVEAL Scenario.W1) Scenario.live)
  = [revealed Scenario.w_alice]
  ∧ ∃ header, Bot.reveal_text Scenario.w_alice
              = header +:+ Bot.ob_val (Bot.content Scenario.w_alice).
Proof.
  destruct (reveal_non_destructive Scenario.live Scenario.W1 Scenario.bob)
    as (_ & _ & _ & _ & H).
  apply H.
  - vm_compute. reflexivity.
  - right. reflexivity.
Defined.

(** ** Creation *)

Section Creation.
Import Bot.

(** What [store_whisper] leaves behind. *)
Lemma store_whisper_spec id w st :
  let st' := store_whisper id w st in
  whispers st' = <[id := w]> (whispers st)
  ∧ expiring_tasks st' = <[id := next_task st]> (expiring_tasks st)
  ∧ tasks st'
    = <[next_task st := Suspended (TimerTask id 15)]>
        (match expiring_tasks st !! id with
         | Some t => alter cancel t (tasks st)
         | None => tasks st
         end)
  ∧ next_task st' = S (next_task st)
  ∧ resolver st' = resolver st.
Proof.
  unfold store_whisper, expire_whisper, set_whisper. simpl.
  destruct (expiring_tasks st !! id) as [t|] eqn:E; simpl;
    repeat split; try done.
  - by rewrite insert_delete_eq.
Qed.

(** The inline handler on its successful path. *)
Lemma inline_success q env st r text name :
  Py.split_maxsplit1 (iq_query q) = [r; text] →
  let handle := if Py.startswith r "@" then Py.tail1 r else r in
  snd (Resolver.resolve_user (net env) (resolver st) handle)
  = Return (Some name) →
  answer env = AnswerTrue →
  let id := make_whisper_id (clock env) (fresh_id env) in
  whisper_inline_handler q env st
  = (store_whisper id
       (mkWhisper (iq_from_user q) handle (mkStr (fresh_id env) text))
       (set_resolver
          (fst (Resolver.resolve_user (net env) (resolver st) handle)) st),
     [InlineAnswer (whisper_articles (bot_username env) id name handle) 3 true]).
Proof.
  intros Hsplit handle Hres Hans id.
  unfold whisper_inline_handler.
  destruct (String.eqb (iq_query q) EmptyString) eqn:Hq.
  { apply String.eqb_eq in Hq. rewrite Hq in Hsplit. discriminate. }
  rewrite Hsplit. fold handle.
  destruct (Resolver.resolve_user (net env) (resolver st) handle) as [rs res].
  simpl in Hres. subst res. rewrite Hans. reflexivity.
Qed.

End Creation.



(** ** Runs on which the code departs from the specification *)

(** C3. Alice's whisper W1 is expired on her request and is answered as
    expired or non-existent afterwards. Carol then creates a whisper within
    the same second, her text landing on the address the freed text of alice
    had: the id is W1 again, the record is live again, and a reveal of W1
    succeeds. *)
Theorem expired_id_is_live_again :
  snd (Bot.callback_alone Scenario.alice (EXPIRE Scenario.W1) Scenario.live)
  = [expired_ok]
  ∧ Bot.whispers Scenario.expired !! Scenario.W1 = None
  ∧ snd (Bot.callback_alone Scenario.alice (REVEAL Scenario.W1) Scenario.expired)
    = [not_found_or_expired]
  ∧ let st := fst (Bot.step Scenario.expired
                     (Bot.Inline Scenario.q_carol Scenario.env_carol)) in
    Bot.whispers st !! Scenario.W1 = Some Scenario.w_carol
    ∧ snd (Bot.callback_alone Scenario.alice (REVEAL Scenario.W1) st)
      = [revealed Scenario.w_carol].
Proof. vm_compute. repeat split. Qed.

(** C4. Alice and bob both press Expire on the live whisper W1 and the two
    handlers overlap: each has passed the lookup and the check and sleeps
    before its [whispers.pop]. The first pop removes the record and the
    handler answers; the second pop finds no key and raises [KeyError], which
    nothing in the handler catches. *)
Theorem overlapping_expires_raise_KeyError :
  authorized Scenario.alice Scenario.w_alice
  ∧ authorized Scenario.bob Scenario.w_alice
  ∧ let run :=
      Bot.run Scenario.live
        [Bot.Callback Scenario.alice (EXPIRE Scenario.W1);
         Bot.Callback Scenario.bob (EXPIRE Scenario.W1);
         Bot.Wake 1; Bot.Wake 2] in
    snd run = [expired_ok; Bot.Unhandled KeyError]
    ∧ Bot.tasks (fst run) !! 1 = Some Bot.Finished
    ∧ Bot.tasks (fst run) !! 2 = Some (Bot.Failed KeyError).
Proof.
  split; [by left|]. split; [by right|].
  vm_compute. repeat split.
Qed.

(** C5. Once the timer of the untouched whisper W1 has fired, the record is
    gone while [expiring_tasks] still holds the finished task under W1. And
    while alice's explicit expire sleeps before its pop, the record is still
    stored although the task has already been cancelled and forgotten. *)
Theorem task_handle_outlives_record :
  Bot.whispers Scenario.live !! Scenario.W1 = Some Scenario.w_alice
  ∧ Bot.expiring_tasks Scenario.live !! Scenario.W1 = Some 0
  ∧ Bot.tasks Scenario.live !! 0
    = Some (Bot.Suspended (Bot.TimerTask Scenario.W1 15))
  ∧ Bot.whispers Scenario.timed_out !! Scenario.W1 = None
  ∧ Bot.expiring_tasks Scenario.timed_out !! Scenario.W1 = Some 0
  ∧ Bot.tasks Scenario.timed_out !! 0 = Some Bot.Finished
  ∧ let st := fst (Bot.step Scenario.live
                     (Bot.Callback Scenario.alice (EXPIRE Scenario.W1))) in
    Bot.whispers st !! Scenario.W1 = Some Scenario.w_alice
    ∧ Bot.expiring_tasks st !! Scenario.W1 = None
    ∧ Bot.tasks st !! 0 = Some Bot.Cancelled.
Proof. vm_compute. repeat split. Qed.

(** C7. Two creations, by different senders with different texts, return the
    same id: the second happens in the second of the first, after the first
    whisper was expired, and its text is allocated where the first text
    was. Both ids are W1. *)
Theorem two_creations_one_id :
  Scenario.q_alice ≠ Scenario.q_carol
  ∧ Bot.make_whisper_id (Bot.clock Scenario.env_alice)
      (Bot.fresh_id Scenario.env_alice) = Scenario.W1
  ∧ Bot.make_whisper_id (Bot.clock Scenario.env_carol)
      (Bot.fresh_id Scenario.env_carol) = Scenario.W1
  ∧ Bot.step Bot.init (Bot.Inline Scenario.q_alice Scenario.env_alice)
    = (Scenario.live,
       [Bot.InlineAnswer
          (Bot.whisper_articles "lowvoicebot" Scenario.W1 "Bob" "bob") 3 true])
  ∧ Bot.whispers Scenario.expired = ∅
  ∧ snd (Bot.step Scenario.expired
           (Bot.Inline Scenario.q_carol Scenario.env_carol))
    = [Bot.InlineAnswer
         (Bot.whisper_articles "lowvoicebot" Scenario.W1 "Alice" "alice") 3 true]
  ∧ Bot.whispers
      (fst (Bot.step Scenario.expired
              (Bot.Inline Scenario.q_carol Scenario.env_carol)))
    = {[ Scenario.W1 := Scenario.w_carol ]}.
Proof.
  split; [discriminate|].
  repeat split; vm_compute; reflexivity.
Qed.

(** ** The resolver *)

Section ResolverFacts.
Import Resolver.

Lemma strip_prefix_app p s r : Py.strip_prefix p s = Some r → s = p +:+ r.
Proof.
  revert s. induction p as [|a p IH]; intros [|b s] H; simpl in H; try done.
  - by injection H as <-.
  - by injection H as <-.
  - destruct (Ascii.eqb a b) eqn:E; [|done].
    apply Ascii.eqb_eq in E as ->.
    change (String b s = String b (p +:+ r)). f_equal. by apply IH.
Qed.

(** The group of a match is never empty, holds no line feed, and is followed
    by the closing tag. *)
Lemma lazy_group_sound close s g :
  Py.lazy_group close s = Some g →
  g ≠ EmptyString ∧ Py.has_char Py.LF g = false
  ∧ ∃ post, s = g +:+ close +:+ post.
Proof.
  revert g. induction s as [|c s IH]; intros g H; simpl in H; [done|].
  destruct (Ascii.eqb c Py.LF) eqn:Ec; [done|].
  unfold Py.startswith in H.
  destruct (Py.strip_prefix close s) as [post|] eqn:Ep.
  - injection H as <-. repeat split; [done|simpl; by rewrite Ec|].
    exists post. apply strip_prefix_app in Ep. by rewrite Ep.
  - destruct (Py.lazy_group close s) as [g'|]; [|done].
    injection H as <-. destruct (IH g' eq_refl) as (_ & Hlf & post & ->).
    repeat split; [done|simpl; by rewrite Ec|]. by exists post.
Qed.

Lemma search_group1_sound body g :
  Py.search_group1 body = Some g →
  g ≠ EmptyString ∧ Py.has_char Py.LF g = false
  ∧ ∃ pre post, body = pre +:+ Py.RE_OPEN +:+ g +:+ Py.RE_CLOSE +:+ post.
Proof.
  induction body as [|c body IH].
  - simpl. unfold Py.match_here. simpl. done.
  - intros H. simpl in H.
    destruct (Py.match_here (String c body)) as [g'|] eqn:Em.
    + injection H as ->. unfold Py.match_here in Em.
      destruct (Py.strip_prefix Py.RE_OPEN (String c body)) as [rest|] eqn:Ep;
        [|done].
      simpl in Em. apply lazy_group_sound in Em as (? & ? & post & ->).
      repeat split; try done.
      exists EmptyString, post. by apply strip_prefix_app in Ep.
    + destruct (IH H) as (? & ? & pre & post & ->).
      repeat split; try done. by exists (String c pre), post.
Qed.

(** The body of [resolve_user] by cases on what the network did. *)
Lemma resolve_user_body_cases o :
  resolve_user_body o
  = Return match o with
           | GetRaises _ => None
           | Response status text =>
               if (status =? 200)%Z then
                 match text with
                 | Return body => Py.search_group1 body
                 | Raise _ => None
                 end
               else None
           end.
Proof.
  destruct o as [e|status text]; unfold resolve_user_body; simpl.
  - by destruct e.
  - destruct (status =? 200)%Z; simpl; [|done].
    destruct text as [body|e]; simpl; [|by destruct e].
    by destruct (Py.search_group1 body).
Qed.

Lemma resolve_user_miss net st h :
  cache_get h (cache st) = None →
  snd (resolve_user net st h) = resolve_user_body (net (url_of h))
  ∧ requests (fst (resolve_user net st h)) = requests st ++ [url_of h].
Proof.
  intros Hmiss. unfold resolve_user, alru_cache, resolve_user_uncached.
  rewrite Hmiss, resolve_user_body_cases. done.
Qed.

Lemma resolve_user_hit net st h r :
  cache_get h (cache st) = Some r →
  snd (resolve_user net st h) = Return r
  ∧ requests (fst (resolve_user net st h)) = requests st.
Proof.
  intros Hhit. unfold resolve_user, alru_cache. by rewrite Hhit.
Qed.

End ResolverFacts.

(** C9. Whatever the handle, the state and the network, [resolve_user]
    returns and does not raise. The result is [None] when the request fails,
    when the status is not 200, when the body cannot be decoded and when the
    pattern is not found in it; otherwise it is the group of the leftmost
    match, a non-empty text without line feed standing between the opening
    and the closing tag. *)
Theorem resolve_user_swallows_failures net st h :
  (∃ r, snd (Resolver.resolve_user net st h) = Return r)
  ∧ (Resolver.cache_get h (Resolver.cache st) = None →
     snd (Resolver.resolve_user net st h)
     = Resolver.resolve_user_body (net (Resolver.url_of h)))
  ∧ (∀ e, Resolver.resolve_user_body (Resolver.GetRaises e) = Return None)
  ∧ (∀ status text, status ≠ 200%Z →
       Resolver.resolve_user_body (Resolver.Response status text) = Return None)
  ∧ (∀ e, Resolver.resolve_user_body (Resolver.Response 200 (Raise e))
          = Return None)
  ∧ (∀ body, Py.search_group1 body = None →
       Resolver.resolve_user_body (Resolver.Response 200 (Return body))
       = Return None)
  ∧ (∀ body name, Py.search_group1 body = Some name →
       Resolver.resolve_user_body (Resolver.Response 200 (Return body))
       = Return (Some name)
       ∧ name ≠ EmptyString ∧ Py.has_char Py.LF name = false
       ∧ ∃ pre post,
           body = pre +:+ Py.RE_OPEN +:+ name +:+ Py.RE_CLOSE +:+ post).
Proof.
  split.
  { destruct (Resolver.cache_get h (Resolver.cache st)) as [r|] eqn:E.
    - exists r. by apply resolve_user_hit.
    - destruct (resolve_user_miss net st h E) as [-> _].
      rewrite resolve_user_body_cases. eauto. }
  split; [intros E; by apply resolve_user_miss|].
  split; [intros e; by rewrite resolve_user_body_cases|].
  split.
  { intros status text Hs. rewrite resolve_user_body_cases.
    by apply Z.eqb_neq in Hs as ->. }
  split; [intros e; by rewrite resolve_user_body_cases|].
  split; [intros body Hb; rewrite resolve_user_body_cases; simpl; by rewrite Hb|].
  intros body name Hb. split.
  - rewrite resolve_user_body_cases. simpl. by rewrite Hb.
  - by apply search_group1_sound.
Qed.

Lemma resolve_user_swallows_failures_witness :
  Resolver.resolve_user Scenario.offline Resolver.init "bob"
  = ({| Resolver.HTTP_SESSION := true;
        Resolver.cache := [("bob", None)];
        Resolver.requests := ["https://t.me/bob"] |}, Return None)
  ∧ snd (Resolver.resolve_user Scenario.online Resolver.init "bob")
    = Return (Some "Bob")
  ∧ Resolver.resolve_user_body
      (Resolver.Response 404 (Return "<html>Not Found</html>")) = Return None.
Proof.
  destruct (resolve_user_swallows_failures Scenario.online Resolver.init "bob")
    as (_ & Hmiss & _ & Hstatus & _ & _ & _).
  split; [reflexivity|]. split.
  - rewrite Hmiss by reflexivity. reflexivity.
  - apply Hstatus. discriminate.
Defined.

(** ** Memoization *)

Section Memo.
Import Resolver.

Lemma cache_get_app_miss k pre c :
  Forall (λ e, fst e ≠ k) pre → cache_get k (pre ++ c) = cache_get k c.
Proof.
  unfold cache_get. induction 1 as [|[k' v] pre Hk _ IH]; [done|].
  simpl in *. destruct (String.eqb k' k) eqn:E; [|done].
  by apply String.eqb_eq in E.
Qed.

Lemma cache_get_cached h r n c : cached_at h r n c → cache_get h c = Some r.
Proof.
  intros (pre & post & -> & Hpre & _). rewrite cache_get_app_miss by done.
  unfold cache_get. simpl. by rewrite String.eqb_refl.
Qed.

Lemma cache_remove_length k c :
  (List.length (cache_remove k c) ≤ List.length c)%nat.
Proof.
  unfold cache_remove. induction c as [|e c IH]; simpl; [done|].
  destruct (negb (String.eqb (fst e) k)); simpl; lia.
Qed.

Lemma cache_remove_keeps k h c :
  Forall (λ e, fst e ≠ h) c → Forall (λ e, fst e ≠ h) (cache_remove k c).
Proof.
  unfold cache_remove. induction 1 as [|e c He _ IH]; simpl; [constructor|].
  destruct (negb (String.eqb (fst e) k)); [by constructor|done].
Qed.

Lemma cache_remove_app k c1 c2 :
  cache_remove k (c1 ++ c2) = cache_remove k c1 ++ cache_remove k c2.
Proof. unfold cache_remove. apply List.filter_app. Qed.

(** Right after a call for [h], the entry of [h] is the most recent one. *)
Lemma resolve_user_caches net st h :
  ∃ r, snd (resolve_user net st h) = Return r
       ∧ cached_at h r 0 (cache (fst (resolve_user net st h))).
Proof.
  unfold resolve_user, alru_cache, resolve_user_uncached.
  destruct (cache_get h (cache st)) as [r|] eqn:E.
  - exists r. split; [done|]. by exists [], (cache_remove h (cache st)).
  - rewrite resolve_user_body_cases.
    match goal with |- context [Return ?x] => set (r := x) end.
    exists r. split; [done|]. simpl.
    destruct (decide (maxsize < S (List.length (cache st)))%nat) as [Hfull|_].
    + destruct (cache st) as [|e c]; [unfold maxsize in Hfull; simpl in Hfull; lia|].
      exists [], (removelast (e :: c)). by split.
    + by exists [], (cache st).
Qed.

(** Another call, for any handle, pushes the entry back by one place at
    most, and cannot evict it while fewer than [maxsize] entries are more
    recent. *)
Lemma resolve_user_keeps net st k h r n :
  cached_at h r n (cache st) → (S n < maxsize)%nat →
  cached_at h r (S n) (cache (fst (resolve_user net st k))).
Proof.
  intros Hc Hn. pose proof Hc as (pre & post & Hcache & Hpre & Hlen).
  unfold resolve_user, alru_cache, resolve_user_uncached.
  destruct (cache_get k (cache st)) as [v|] eqn:E; simpl.
  - destruct (decide (k = h)) as [->|Hne].
    + rewrite (cache_get_cached h r n _ Hc) in E. injection E as <-.
      exists [], (cache_remove h (cache st)). repeat split; [constructor|simpl; lia].
    + rewrite Hcache, cache_remove_app. simpl.
      destruct (String.eqb h k) eqn:Ehk; [by apply String.eqb_eq in Ehk|].
      simpl. exists ((k, v) :: cache_remove k pre), (cache_remove k post).
      repeat split.
      * constructor; [done|]. by apply cache_remove_keeps.
      * simpl. pose proof (cache_remove_length k pre). lia.
  - rewrite resolve_user_body_cases.
    match goal with |- context [Return ?x] => set (v := x) end. simpl.
    assert (k ≠ h) as Hne.
    { intros ->. by rewrite (cache_get_cached h r n _ Hc) in E. }
    rewrite Hcache.
    destruct (decide (maxsize < S (List.length (pre ++ (h, r) :: post)))%nat)
      as [Hfull|_].
    + destruct post as [|p post].
      { rewrite length_app in Hfull. simpl in Hfull. lia. }
      exists ((k, v) :: pre), (removelast (p :: post)). repeat split.
      * change (removelast (((k, v) :: pre) ++ (h, r) :: p :: post)
                = ((k, v) :: pre) ++ (h, r) :: removelast (p :: post)).
        by rewrite removelast_app.
      * by constructor.
      * simpl. lia.
    + exists ((k, v) :: pre), post. repeat split; [by constructor|simpl; lia].
Qed.

Lemma resolve_all_keeps calls st h r n :
  cached_at h r n (cache st) → (n + List.length calls < maxsize)%nat →
  cached_at h r (n + List.length calls) (cache (resolve_all calls st)).
Proof.
  revert st n. induction calls as [|[net k] calls IH]; intros st n Hc Hn; simpl.
  - by rewrite Nat.add_0_r.
  - simpl in Hn. replace (n + S (List.length calls)) with (S n + List.length calls) by lia.
    apply IH; [|lia]. apply resolve_user_keeps; [done|lia].
Qed.

End Memo.

(** C8. A handle that has been resolved, to a name or to [None], is answered
    from the cache when it is asked again: the result is the same and no
    request is sent, whatever the network would say now, as long as fewer
    than [maxsize] = 1024 other calls came in between, which is too few for
    the least-recently-used eviction to reach the entry. *)
Theorem resolve_user_memoized net st h calls net' :
  (List.length calls < Resolver.maxsize)%nat →
  let first := Resolver.resolve_user net st h in
  let between := Resolver.resolve_all calls (fst first) in
  let again := Resolver.resolve_user net' between h in
  snd again = snd first
  ∧ Resolver.requests (fst again) = Resolver.requests between.
Proof.
  intros Hlen first between again.
  destruct (resolve_user_caches net st h) as (r & Hr & Hc).
  fold first in Hr, Hc.
  pose proof (resolve_all_keeps calls (fst first) h r 0 Hc Hlen) as Hb.
  fold between in Hb. apply cache_get_cached in Hb.
  destruct (resolve_user_hit net' between h r Hb) as [Hs Hq].
  subst again. by rewrite Hs, Hr, Hq.
Qed.

Lemma resolve_user_memoized_witness :
  let first := Resolver.resolve_user Scenario.offline Resolver.init "bob" in
  let between :=
    Resolver.resolve_all
      [(Scenario.online, "carol"); (Scenario.online, "alice")] (fst first) in
  let again := Resolver.resolve_user Scenario.online between "bob" in
  snd again = snd first
  ∧ Resolver.requests (fst again) = Resolver.requests between.
Proof.
  apply (resolve_user_memoized Scenario.offline Resolver.init "bob"
           [(Scenario.online, "carol"); (Scenario.online, "alice")]
           Scenario.online).
  unfold Resolver.maxsize. simpl. lia.
Defined.

(** ** Lifecycle of a record, overlapping expires and timers *)

Section Lifecycle.
Import Bot.

(** Two expires one after the other, each run to its end: the first one
    removes the record, the second one is told that nothing is there and
    changes nothing. *)
Lemma expire_twice_in_a_row st id w u1 u2 :
  whispers st !! id = Some w → authorized u1 w →
  let first := callback_alone u1 (EXPIRE id) st in
  snd first = [expired_ok]
  ∧ callback_alone u2 (EXPIRE id) (fst first) = (fst first, [not_found_or_expired]).
Proof.
  intros Hw Hu first. apply neither_false in Hu.
  destruct (expire_live st id w u1 Hw) as [Hout Hgone].
  rewrite Hu in Hout, Hgone. split; [done|]. by apply expire_absent.
Qed.

(** [whispers.pop] on an id that is not stored. *)
Lemma pop_absent st id : whispers st !! id = None → pop_whisper id st = Raise KeyError.
Proof. intros H. unfold pop_whisper. by rewrite H. Qed.

(** Resuming any task leaves [expiring_tasks] as it is: the timer that has
    fired is never taken out of it. *)
Lemma resume_keeps_expiring_tasks t st :
  expiring_tasks (fst (resume t st)) = expiring_tasks st.
Proof.
  unfold resume. destruct (tasks st !! t) as [[f| | |e]|]; try done.
  unfold pop_whisper. by destruct (whispers st !! frame_id f).
Qed.

Lemma callback_keeps_whispers u data st :
  whispers (fst (fst (whisper_callback_handler u data st))) = whispers st.
Proof.
  unfold whisper_callback_handler.
  destruct (Py.split_char1 "|" data) as [|action [|id [|]]]; try done.
  destruct (whispers st !! id) as [w|]; [|done].
  destruct (neither u w); [done|].
  destruct (String.eqb action "REVEAL"); [done|].
  destruct (String.eqb action "EXPIRE"); [|done].
  pose proof (expire_whisper_whispers id 0 st) as H.
  by destruct (expire_whisper id 0 st) as [st1 [id' s]].
Qed.

Lemma inline_whispers q env st :
  let st' := fst (whisper_inline_handler q env st) in
  whispers st' = whispers st
  ∨ ∃ w, whispers st'
         = <[make_whisper_id (clock env) (fresh_id env) := w]> (whispers st).
Proof.
  unfold whisper_inline_handler.
  destruct (String.eqb (iq_query q) EmptyString); [by left|].
  destruct (Py.split_maxsplit1 (iq_query q)) as [|r [|text [|]]]; try by left.
  destruct (Resolver.resolve_user _ _ _) as [rs [[name|]|e]]; try by left.
  destruct (answer env); try by left.
  right. eexists. simpl.
  match goal with |- context [store_whisper ?i ?w ?s] =>
    destruct (store_whisper_spec i w s) as (Hw & _) end.
  by rewrite Hw.
Qed.

Lemma step_absent st e id :
  whispers st !! id = None → ¬ creates id e →
  whispers (fst (step st e)) !! id = None.
Proof.
  intros Hw Hc. destruct e as [q env|u data|u id'|t]; simpl.
  - destruct (inline_whispers q env st) as [->|[w ->]]; [done|].
    rewrite lookup_insert_ne; [done|]. intros E. by apply Hc.
  - pose proof (callback_keeps_whispers u data st) as H.
    destruct (whisper_callback_handler u data st) as [[st1 out] k].
    simpl in *. by rewrite H.
  - done.
  - unfold resume. destruct (tasks st !! t) as [[f| | |e]|]; try done.
    unfold pop_whisper. destruct (whispers st !! frame_id f); simpl; [|done].
    rewrite lookup_delete_None. by right.
Qed.

(** Once an id is out of the store, nothing but a creation that draws the
    very same id brings it back: after any run without such a creation the
    id is still absent, and every request on it is answered accordingly. *)
Lemma absent_stays_absent es st id u :
  whispers st !! id = None → Forall (λ e, ¬ creates id e) es →
  let st' := fst (run st es) in
  whispers st' !! id = None
  ∧ callback_alone u (REVEAL id) st' = (st', [not_found_or_expired])
  ∧ callback_alone u (EXPIRE id) st' = (st', [not_found_or_expired])
  ∧ start_save_handler u id st' = [MessageReply MSG_EXPIRED_OR_NONEXISTENT].
Proof.
  intros Hw Hes.
  assert (whispers (fst (run st es)) !! id = None) as Habs.
  { revert st Hw. induction Hes as [|e es He _ IH]; intros st Hw; [done|].
    simpl. pose proof (step_absent st e id Hw He) as H1.
    destruct (step st e) as [st1 out1]. specialize (IH st1 H1).
    by destruct (run st1 es). }
  simpl. split; [done|]. split; [by apply reveal_absent|].
  split; [by apply expire_absent|].
  unfold start_save_handler. by rewrite Habs.
Qed.

End Lifecycle.

Section Overlap.
Import Bot.

(** The first half of an authorized expire, up to the sleep. *)
Lemma expire_start st id w u :
  whispers st !! id = Some w → authorized u w →
  whisper_callback_handler u (EXPIRE id) st
  = ({| whispers := whispers st;
        expiring_tasks := delete id (expiring_tasks st);
        tasks := <[next_task st := Suspended (CallbackExpire id 0)]>
                   (match expiring_tasks st !! id with
                    | Some t => alter cancel t (tasks st)
                    | None => tasks st
                    end);
        next_task := S (next_task st);
        resolver := resolver st |}, [], Some (next_task st)).
Proof.
  intros Hw Hu. apply neither_false in Hu.
  unfold whisper_callback_handler. rewrite split_EXPIRE, Hw, Hu. simpl.
  unfold expire_whisper, spawn.
  destruct (expiring_tasks st !! id) as [t|] eqn:E; simpl; [done|].
  by rewrite delete_id.
Qed.

(** Two authorized expires of one live record that overlap: both have
    passed the check before either pops. Whatever the state and whoever the
    two requesters, the second pop raises [KeyError]. *)
Lemma overlapping_expires st id w u1 u2 :
  whispers st !! id = Some w → authorized u1 w → authorized u2 w →
  snd (run st [Callback u1 (EXPIRE id); Callback u2 (EXPIRE id);
               Wake (next_task st); Wake (S (next_task st))])
  = [expired_ok; Unhandled KeyError].
Proof.
  intros Hw Hu1 Hu2. unfold run, step.
  rewrite (expire_start st id w u1 Hw Hu1). cbv beta iota zeta.
  match goal with |- context [whisper_callback_handler u2 (EXPIRE id) ?s] =>
    rewrite (expire_start s id w u2 Hw Hu2) end.
  simpl.
  rewrite lookup_delete_eq.
  unfold resume at 1. simpl.
  rewrite lookup_insert_ne by lia. rewrite lookup_insert_eq.
  unfold pop_whisper at 1. simpl. rewrite Hw. simpl.
  unfold resume, set_task. simpl.
  rewrite lookup_insert_ne by lia. rewrite lookup_insert_eq.
  unfold pop_whisper. simpl. rewrite lookup_delete_eq. done.
Qed.

End Overlap.

Section Timers.
Import Bot.

Lemma cancel_not_suspended ts f : cancel ts ≠ Suspended f.
Proof. by destruct ts. Qed.

(** After the synchronous part of [expire_whisper id], no timer of [id] is
    asleep, and the timers of the other ids are as before. *)
Lemma cancelled_timers st id t id' s :
  timers_registered st →
  match expiring_tasks st !! id with
  | Some t0 => alter cancel t0 (tasks st)
  | None => tasks st
  end !! t = Some (Suspended (TimerTask id' s)) →
  id' ≠ id ∧ expiring_tasks st !! id' = Some t.
Proof.
  intros Hinv Ht. destruct (expiring_tasks st !! id) as [t0|] eqn:E.
  - rewrite lookup_alter in Ht. case_decide as Heq.
    + subst t0. destruct (tasks st !! t) as [ts|]; [|done].
      simpl in Ht. injection Ht as Ht. by apply cancel_not_suspended in Ht.
    + apply Hinv in Ht. split; [|done]. intros ->. congruence.
  - apply Hinv in Ht. split; [|done]. intros ->. congruence.
Qed.

Lemma cancelled_below st id t :
  tasks_below_next st → (next_task st ≤ t)%nat →
  match expiring_tasks st !! id with
  | Some t0 => alter cancel t0 (tasks st)
  | None => tasks st
  end !! t = None.
Proof.
  intros Hb Ht. destruct (expiring_tasks st !! id) as [t0|]; [|by apply Hb].
  rewrite lookup_alter. case_decide; [subst; by rewrite Hb|by apply Hb].
Qed.

Lemma store_whisper_inv id w st :
  timers_registered st ∧ tasks_below_next st →
  timers_registered (store_whisper id w st)
  ∧ tasks_below_next (store_whisper id w st).
Proof.
  intros [Hreg Hlow].
  destruct (store_whisper_spec id w st) as (_ & He & Ht & Hn & _).
  split.
  - intros t id' s. rewrite He, Ht.
    destruct (decide (t = next_task st)) as [->|Hne].
    + rewrite lookup_insert_eq. intros [= <- <-]. by rewrite lookup_insert_eq.
    + rewrite lookup_insert_ne by done. intros H.
      apply cancelled_timers in H as [Hid H]; [|done].
      by rewrite lookup_insert_ne.
  - intros t. rewrite Hn, Ht. intros Hle.
    rewrite lookup_insert_ne by lia. apply cancelled_below; [done|lia].
Qed.

Lemma set_resolver_inv rs st :
  timers_registered st ∧ tasks_below_next st →
  timers_registered (set_resolver rs st) ∧ tasks_below_next (set_resolver rs st).
Proof. done. Qed.

Lemma inline_inv q env st :
  timers_registered st ∧ tasks_below_next st →
  timers_registered (fst (whisper_inline_handler q env st))
  ∧ tasks_below_next (fst (whisper_inline_handler q env st)).
Proof.
  intros Hinv. unfold whisper_inline_handler.
  destruct (String.eqb (iq_query q) EmptyString); [done|].
  destruct (Py.split_maxsplit1 (iq_query q)) as [|r [|text [|]]]; try done.
  destruct (Resolver.resolve_user _ _ _) as [rs [[name|]|e]]; try done.
  destruct (answer env); try done.
  simpl. by apply store_whisper_inv, set_resolver_inv.
Qed.

Lemma callback_inv u data st :
  timers_registered st ∧ tasks_below_next st →
  timers_registered (fst (fst (whisper_callback_handler u data st)))
  ∧ tasks_below_next (fst (fst (whisper_callback_handler u data st))).
Proof.
  intros [Hreg Hlow]. unfold whisper_callback_handler.
  destruct (Py.split_char1 "|" data) as [|action [|id [|]]]; try done.
  destruct (whispers st !! id) as [w|]; [|done].
  destruct (neither u w); [done|].
  destruct (String.eqb action "REVEAL"); [done|].
  destruct (String.eqb action "EXPIRE"); [|done].
  assert (fst (expire_whisper id 0 st)
          = {| whispers := whispers st;
               expiring_tasks := delete id (expiring_tasks st);
               tasks := match expiring_tasks st !! id with
                        | Some t => alter cancel t (tasks st)
                        | None => tasks st
                        end;
               next_task := next_task st;
               resolver := resolver st |}) as Hst1.
  { unfold expire_whisper. destruct (expiring_tasks st !! id) eqn:E; [done|].
    simpl. rewrite delete_id by done. by destruct st. }
  pose proof (expire_whisper_coro id 0 st) as Hco.
  destruct (expire_whisper id 0 st) as [st1 [id' s']].
  simpl in Hst1, Hco. injection Hco as -> ->. subst st1. simpl.
  split.
  - intros t id' s. simpl.
    destruct (decide (t = next_task st)) as [->|Hne].
    + by rewrite lookup_insert_eq.
    + rewrite lookup_insert_ne by done. intros H.
      apply cancelled_timers in H as [Hid H]; [|done].
      by rewrite lookup_delete_ne.
  - intros t. simpl. intros Hle.
    rewrite lookup_insert_ne by lia. apply cancelled_below; [done|lia].
Qed.

Lemma resume_inv t st :
  timers_registered st ∧ tasks_below_next st →
  timers_registered (fst (resume t st)) ∧ tasks_below_next (fst (resume t st)).
Proof.
  intros [Hreg Hlow]. unfold resume.
  destruct (tasks st !! t) as [[f| | |e]|] eqn:Et; try done.
  assert (t < next_task st)%nat as Hlt.
  { destruct (decide (t < next_task st)%nat); [done|].
    rewrite Hlow in Et by lia. done. }
  unfold pop_whisper. destruct (whispers st !! frame_id f); simpl.
  - split.
    + intros t' id s. simpl.
      destruct (decide (t' = t)) as [->|Hne]; [by rewrite lookup_insert_eq|].
      rewrite lookup_insert_ne by done. apply Hreg.
    + intros t'. simpl. intros Hle. rewrite lookup_insert_ne by lia. by apply Hlow.
  - split.
    + intros t' id s. simpl.
      destruct (decide (t' = t)) as [->|Hne]; [by rewrite lookup_insert_eq|].
      rewrite lookup_insert_ne by done. apply Hreg.
    + intros t'. simpl. intros Hle. rewrite lookup_insert_ne by lia. by apply Hlow.
Qed.

Lemma step_inv st e :
  timers_registered st ∧ tasks_below_next st →
  timers_registered (fst (step st e)) ∧ tasks_below_next (fst (step st e)).
Proof.
  intros Hinv. destruct e as [q env|u data|u id|t]; simpl.
  - by apply inline_inv.
  - pose proof (callback_inv u data st Hinv) as H.
    by destruct (whisper_callback_handler u data st) as [[st1 out] k].
  - done.
  - by apply resume_inv.
Qed.

Lemma run_inv es st :
  timers_registered st ∧ tasks_below_next st →
  timers_registered (fst (run st es)) ∧ tasks_below_next (fst (run st es)).
Proof.
  revert st. induction es as [|e es IH]; intros st Hinv; [done|].
  simpl. pose proof (step_inv st e Hinv) as H1.
  destruct (step st e) as [st1 out1]. specialize (IH st1 H1).
  by destruct (run st1 es).
Qed.

(** In every reachable state at most one timer task is asleep per id, and
    it is the registered one. *)
Lemma one_timer_per_id st t1 t2 id s1 s2 :
  reachable st →
  tasks st !! t1 = Some (Suspended (TimerTask id s1)) →
  tasks st !! t2 = Some (Suspended (TimerTask id s2)) →
  t1 = t2 ∧ expiring_tasks st !! id = Some t1.
Proof.
  intros [es <-] H1 H2.
  assert (timers_registered init ∧ tasks_below_next init) as Hinit.
  { split; intros ?; intros; by rewrite ?lookup_empty in *. }
  destruct (run_inv es init Hinit) as [Hreg _].
  apply Hreg in H1 as E1. apply Hreg in H2 as E2. split; [congruence|done].
Qed.

End Timers.

(** ** Whisper ids *)

Section Ids.
Import Bot.

Lemma app_cons c a b : String c a +:+ b = String c (a +:+ b).
Proof. reflexivity. Qed.

Lemma app_empty_r a : a +:+ EmptyString = a.
Proof. induction a as [|c a IH]; [done|]. by rewrite app_cons, IH. Qed.

Lemma unhex_app a b x : Py.unhex (a +:+ b) x = Py.unhex b (Py.unhex a x).
Proof.
  revert x. induction a as [|c a IH]; intros x; [done|].
  rewrite app_cons. simpl. apply IH.
Qed.

Lemma has_char_app c a b :
  Py.has_char c (a +:+ b) = Py.has_char c a || Py.has_char c b.
Proof.
  induction a as [|x a IH]; [done|].
  rewrite app_cons. simpl. by rewrite IH, orb_assoc.
Qed.

Lemma hex_digit_spec d :
  (d < 16)%N →
  Py.digit_val (Py.hex_digit d) = d ∧ Ascii.eqb (Py.hex_digit d) "-" = false.
Proof.
  intros H. destruct d as [|p]; [by split|].
  do 4 (destruct p as [p|p|]; try (by split)); lia.
Qed.

Lemma size_nat_bound n : (n < 2 ^ N.of_nat (N.size_nat n))%N.
Proof.
  destruct n as [|p]; [done|]. simpl.
  induction p as [p IH|p IH|]; simpl Pos.size_nat;
    rewrite ?Nat2N.inj_succ, ?N.pow_succ_r'; lia.
Qed.

(** The digits [hex_go] puts in front of [acc]: they read back as [n] and
    hold no dash. *)
Lemma hex_go_spec fuel n acc :
  (n < 2 ^ N.of_nat fuel)%N →
  ∃ ds, Py.hex_go fuel n acc = ds +:+ acc
        ∧ Py.unhex ds 0 = n ∧ Py.has_char "-" ds = false.
Proof.
  revert n acc. induction fuel as [|fuel IH]; intros n acc Hn.
  - exists EmptyString. simpl in *. repeat split. lia.
  - simpl Py.hex_go. destruct (n =? 0)%N eqn:E.
    + apply N.eqb_eq in E as ->. by exists EmptyString.
    + apply N.eqb_neq in E.
      rewrite Nat2N.inj_succ, N.pow_succ_r' in Hn.
      assert (n / 16 < 2 ^ N.of_nat fuel)%N as Hdiv.
      { apply N.Div0.div_lt_upper_bound. lia. }
      destruct (IH (n / 16)%N (String (Py.hex_digit (n mod 16)) acc) Hdiv)
        as (ds & -> & Hval & Hdash).
      assert (n mod 16 < 16)%N as Hmod by (apply N.mod_lt; lia).
      destruct (hex_digit_spec _ Hmod) as [Hd1 Hd2].
      exists (ds +:+ String (Py.hex_digit (n mod 16)) EmptyString).
      repeat split.
      * by rewrite string_app_assoc.
      * rewrite unhex_app, Hval. simpl. rewrite Hd1.
        pose proof (N.div_mod n 16). lia.
      * rewrite has_char_app, Hdash. simpl. by rewrite Hd2.
Qed.

Lemma format_x_spec n :
  Py.unhex (Py.format_x n) 0 = n ∧ Py.has_char "-" (Py.format_x n) = false.
Proof.
  unfold Py.format_x. destruct (n =? 0)%N eqn:E.
  - apply N.eqb_eq in E as ->. done.
  - destruct (hex_go_spec (N.size_nat n) n EmptyString (size_nat_bound n))
      as (ds & -> & Hval & Hdash).
    by rewrite app_empty_r.
Qed.

Lemma format_x_inj n m : Py.format_x n = Py.format_x m → n = m.
Proof.
  intros H. destruct (format_x_spec n) as [<- _].
  destruct (format_x_spec m) as [<- _]. by rewrite H.
Qed.

(** Two texts without dash, each followed by a dash and a rest. *)
Lemma split_at_dash x1 x2 y1 y2 :
  Py.has_char "-" x1 = false → Py.has_char "-" x2 = false →
  x1 +:+ String "-" y1 = x2 +:+ String "-" y2 → x1 = x2 ∧ y1 = y2.
Proof.
  revert x2. induction x1 as [|c x1 IH]; intros [|c' x2] H1 H2 H;
    rewrite ?app_cons in H; simpl in *.
  - by injection H.
  - injection H as <- _. by rewrite Ascii.eqb_refl in H2.
  - injection H as -> _. by rewrite Ascii.eqb_refl in H1.
  - injection H as <- H. apply orb_false_iff in H1 as [_ H1].
    apply orb_false_iff in H2 as [_ H2].
    destruct (IH x2 H1 H2 H) as [-> ->]. done.
Qed.

(** The id determines the second and the address it was made of. *)
Lemma make_whisper_id_inj t a t' a' :
  make_whisper_id t a = make_whisper_id t' a' → t = t' ∧ a = a'.
Proof.
  unfold make_whisper_id. intros H.
  apply (inj (String.append "WHISPER-")) in H.
  apply split_at_dash in H as [Ht Ha]; try apply format_x_spec.
  split; by apply format_x_inj.
Qed.

Lemma inline_whispers_content q env st :
  let st' := fst (whisper_inline_handler q env st) in
  whispers st' = whispers st
  ∨ ∃ w, ob_id (content w) = fresh_id env
         ∧ whispers st'
           = <[make_whisper_id (clock env) (fresh_id env) := w]> (whispers st).
Proof.
  unfold whisper_inline_handler.
  destruct (String.eqb (iq_query q) EmptyString); [by left|].
  destruct (Py.split_maxsplit1 (iq_query q)) as [|r [|text [|]]]; try by left.
  destruct (Resolver.resolve_user _ _ _) as [rs [[name|]|e]]; try by left.
  destruct (answer env); try by left.
  right. simpl.
  match goal with |- context [store_whisper ?i ?w ?s] =>
    exists w; destruct (store_whisper_spec i w s) as (Hw & _) end.
  split; [done|]. by rewrite Hw.
Qed.

Lemma step_ids st e : ids_from_contents st → ids_from_contents (fst (step st e)).
Proof.
  intros Hinv. unfold ids_from_contents.
  destruct e as [q env|u data|u id|t]; cbn [step].
  - destruct (inline_whispers_content q env st) as [->|(w & Hw & ->)]; [done|].
    intros k w'. rewrite lookup_insert. case_decide as Hk.
    + intros [= <-]. exists (clock env). by rewrite Hw.
    + apply Hinv.
  - pose proof (callback_keeps_whispers u data st) as H.
    destruct (whisper_callback_handler u data st) as [[st1 out] k].
    simpl in *. unfold ids_from_contents. by rewrite H.
  - done.
  - unfold resume. destruct (tasks st !! t) as [[f| | |e]|]; try done.
    unfold pop_whisper. destruct (whispers st !! frame_id f); simpl; [|done].
    intros k w'. simpl. rewrite lookup_delete_Some. intros [_ H]. by apply Hinv.
Qed.

Lemma reachable_ids st : reachable st → ids_from_contents st.
Proof.
  intros [es <-].
  assert (ids_from_contents init) as Hinit.
  { intros k w. simpl. by rewrite lookup_empty. }
  revert Hinit. generalize init. induction es as [|e es IH]; intros st Hinv; [done|].
  simpl. pose proof (step_ids st e Hinv) as H1.
  destruct (step st e) as [st1 out1]. specialize (IH st1 H1).
  by destruct (run st1 es).
Qed.

(** As long as the text of a new whisper is an object distinct from the
    stored texts, which holds whenever these are alive together, the id
    drawn for it is the id of no stored whisper, and the creation leaves
    every stored whisper in place. *)
Lemma creation_spares_live_whispers st q env k w :
  reachable st → fresh_object st (fresh_id env) →
  whispers st !! make_whisper_id (clock env) (fresh_id env) = None
  ∧ (whispers st !! k = Some w →
     whispers (fst (whisper_inline_handler q env st)) !! k = Some w).
Proof.
  intros Hreach Hfresh. apply reachable_ids in Hreach.
  assert (whispers st !! make_whisper_id (clock env) (fresh_id env) = None) as Hnone.
  { destruct (whispers st !! _) as [w'|] eqn:E; [|done].
    destruct (Hreach _ _ E) as [t Ht].
    apply make_whisper_id_inj in Ht as [_ Ha].
    by destruct (Hfresh _ _ E). }
  split; [done|]. intros Hk.
  destruct (inline_whispers_content q env st) as [->|(w' & _ & ->)]; [done|].
  rewrite lookup_insert_ne; [done|]. intros <-. congruence.
Qed.

End Ids.

(** ** Concrete runs *)

Example split_two :
  Py.split_maxsplit1 "  @bob   hi there " = ["@bob"; "hi there "].
Proof. reflexivity. Qed.

Example split_one : Py.split_maxsplit1 "@bob   " = ["@bob"].
Proof. reflexivity. Qed.

Example split_bar : Py.split_char1 "|" "REVEAL|W|1" = ["REVEAL"; "W|1"].
Proof. reflexivity. Qed.

Example split_no_bar : Py.split_char1 "|" "REVEAL" = ["REVEAL"].
Proof. reflexivity. Qed.

Example format_x_255 : Py.format_x 255 = "ff".
Proof. reflexivity. Qed.

Example format_x_clock : Py.format_x 1730000000 = "671db480".
Proof. reflexivity. Qed.

Example search_leftmost_lazy :
  Py.search_group1
    ("<p>" +:+ Py.RE_OPEN +:+ "Bob</div>" +:+ Py.RE_OPEN +:+ "Eve</div></div>")
  = Some "Bob".
Proof. reflexivity. Qed.

(** The group does not run over a line feed: the first opening tag fails and
    the search goes on to the second. *)
Example search_skips_broken_line :
  Py.search_group1
    (Py.RE_OPEN +:+ "Bo" +:+ Py.chr Py.LF +:+ "b</div>" +:+ Py.RE_OPEN
     +:+ "Eve</div>")
  = Some "Eve".
Proof. reflexivity. Qed.

(** The handle is compared as it is written: [Bob] is not [bob]. *)
Example handle_match_is_case_sensitive :
  Bot.callback_alone Scenario.bob_upper (REVEAL Scenario.W1) Scenario.live
  = (Scenario.live, [unauthorized])
  ∧ Bot.callback_alone Scenario.bob (REVEAL Scenario.W1) Scenario.live
    = (Scenario.live, [revealed Scenario.w_alice]).
Proof. split; by vm_compute. Qed.

(** With [maxsize] other handles resolved in between, the entry of [bob] has
    been evicted: the next call asks the network again, and here gets
    another answer than the one that had been cached. *)
Example evicted_after_maxsize_calls :
  let first := Resolver.resolve_user Scenario.offline Resolver.init "bob" in
  let between := Resolver.resolve_all Scenario.crowd (fst first) in
  let again := Resolver.resolve_user Scenario.online between "bob" in
  snd first = Return None
  ∧ snd again = Return (Some "Bob")
  ∧ Resolver.requests (fst again)
    = Resolver.requests between ++ ["https://t.me/bob"].
Proof. vm_compute. repeat split. Qed.

(** ** The inline handler: what it parses, stores and answers *)

Section Inline.
Import Bot.

Lemma starts_with_space_app a b :
  Py.starts_with_space a = true → Py.starts_with_space (a +:+ b) = true.
Proof.
  destruct a as [|c1 [|c2 [|c3 r]]]; rewrite ?app_cons; simpl; try done.
  - rewrite orb_false_r. by intros ->.
  - rewrite orb_false_r. intros [->| ->]%orb_true_iff; [done|]. by rewrite orb_true_r.
Qed.

(** Induction on the length of a text. *)
Lemma string_ind3 (P : string → Prop) :
  (∀ s, (∀ r, (String.length r < String.length s)%nat → P r) → P s) → ∀ s, P s.
Proof.
  intros H s. remember (String.length s) as n eqn:E.
  revert s E. induction (lt_wf n) as [n _ IH]. intros s ->.
  apply H. intros r Hr. by apply (IH _ Hr).
Qed.

Lemma lstrip_clean s : Py.starts_with_space (Py.lstrip s) = false.
Proof.
  induction s as [s IH] using string_ind3.
  destruct s as [|c1 [|c2 [|c3 r]]]; [done|..]; simpl.
  - destruct (Py.isspace c1) eqn:E1; [done|]. simpl. by rewrite E1.
  - destruct (Py.isspace c1) eqn:E1.
    { apply (IH (String c2 EmptyString)). simpl. lia. }
    destruct (Py.is_space2 c1 c2) eqn:E2; [done|].
    simpl. by rewrite E1, E2.
  - destruct (Py.isspace c1) eqn:E1.
    { apply (IH (String c2 (String c3 r))). simpl. lia. }
    destruct (Py.is_space2 c1 c2) eqn:E2.
    { apply (IH (String c3 r)). simpl. lia. }
    destruct (Py.is_space3 c1 c2 c3) eqn:E3.
    { apply (IH r). simpl. lia. }
    simpl. by rewrite E1, E2, E3.
Qed.

Lemma lstrip_id s : Py.starts_with_space s = false → Py.lstrip s = s.
Proof.
  destruct s as [|c1 [|c2 [|c3 r]]]; simpl; try done.
  - rewrite orb_false_r. by intros ->.
  - rewrite orb_false_r. intros [-> ->]%orb_false_iff. done.
  - intros [-> [-> ->]%orb_false_iff]%orb_false_iff. done.
Qed.

Lemma no_space_head c s :
  Py.starts_with_space (String c s) = false → Py.isspace c = false.
Proof. simpl. by intros [? _]%orb_false_iff. Qed.

Lemma take_word_spec s :
  Text.has_space (fst (Py.take_word s)) = false
  ∧ s = fst (Py.take_word s) +:+ snd (Py.take_word s)
  ∧ (snd (Py.take_word s) = EmptyString
     ∨ Py.starts_with_space (snd (Py.take_word s)) = true).
Proof.
  induction s as [|a s (IH1 & IH2 & IH3)].
  { split; [done|]. split; [done|]. by left. }
  change (Py.take_word (String a s))
    with (if Py.starts_with_space (String a s) then (EmptyString, String a s)
          else let '(w, r) := Py.take_word s in (String a w, r)).
  destruct (Py.starts_with_space (String a s)) eqn:E.
  { simpl. split; [done|]. split; [done|]. by right. }
  destruct (Py.take_word s) as [w r]. simpl fst in *. simpl snd in *.
  split; [|split; [|done]].
  - change (Text.has_space (String a w))
      with (Py.starts_with_space (String a w) || Text.has_space w).
    rewrite IH1, orb_false_r.
    destruct (Py.starts_with_space (String a w)) eqn:Ew; [|done].
    apply (starts_with_space_app _ r) in Ew.
    rewrite app_cons, <- IH2 in Ew. congruence.
  - rewrite app_cons. by f_equal.
Qed.

(** The two parts of [query.split(maxsplit=1)], when there are two: a first
    word without whitespace and a rest that starts with a visible character. *)
Lemma split_two_spec s a b :
  Py.split_maxsplit1 s = [a; b] →
  a ≠ EmptyString ∧ Text.has_space a = false
  ∧ Py.starts_with_space b = false
  ∧ ∃ c b', b = String c b' ∧ Py.isspace c = false.
Proof.
  unfold Py.split_maxsplit1.
  pose proof (lstrip_clean s) as Hs.
  destruct (Py.lstrip s) as [|c s1] eqn:Es; [done|].
  pose proof (take_word_spec (String c s1)) as (Hw & _ & _).
  assert (fst (Py.take_word (String c s1)) ≠ EmptyString) as Hne.
  { change (Py.take_word (String c s1))
      with (if Py.starts_with_space (String c s1) then (EmptyString, String c s1)
            else let '(w, r) := Py.take_word s1 in (String c w, r)).
    rewrite Hs. by destruct (Py.take_word s1). }
  destruct (Py.take_word (String c s1)) as [w r]. simpl in Hw, Hne.
  pose proof (lstrip_clean r) as Hr.
  destruct (Py.lstrip r) as [|c' r'] eqn:Er; [done|].
  intros [= <- <-]. repeat split; try done.
  exists c', r'. split; [done|]. by apply (no_space_head c' r').
Qed.

Lemma tail1_no_space a : Text.has_space a = false → Text.has_space (Py.tail1 a) = false.
Proof.
  destruct a as [|c a]; [done|].
  change (Text.has_space (String c a))
    with (Py.starts_with_space (String c a) || Text.has_space a).
  by intros [_ ?]%orb_false_iff.
Qed.

End Inline.

(** X1. One run of the inline handler either leaves the whispers, the
    registered handles and the tasks exactly as they were, or, and then the
    answer to the query returned True, stores one record under the id made
    of the clock and of the address of the text: its sender is the author of
    the query, its recipient holds no whitespace character, ASCII or not,
    its content is not empty and does not start with one, and a 15-second
    task is registered for the id. *)
Theorem inline_handler_effect q env st :
  let st' := fst (Bot.whisper_inline_handler q env st) in
  let id := Bot.make_whisper_id (Bot.clock env) (Bot.fresh_id env) in
  (Bot.whispers st' = Bot.whispers st
   ∧ Bot.expiring_tasks st' = Bot.expiring_tasks st
   ∧ Bot.tasks st' = Bot.tasks st
   ∧ Bot.next_task st' = Bot.next_task st)
  ∨ (Bot.answer env = Bot.AnswerTrue
     ∧ ∃ w, Bot.whispers st' = <[id := w]> (Bot.whispers st)
            ∧ Bot.sender w = Bot.iq_from_user q
            ∧ Text.has_space (Bot.recipient w) = false
            ∧ Bot.ob_id (Bot.content w) = Bot.fresh_id env
            ∧ (∃ c text, Bot.ob_val (Bot.content w) = String c text
                         ∧ Py.isspace c = false)
            ∧ Py.starts_with_space (Bot.ob_val (Bot.content w)) = false
            ∧ Bot.expiring_tasks st' !! id = Some (Bot.next_task st)
            ∧ Bot.tasks st' !! Bot.next_task st
              = Some (Bot.Suspended (Bot.TimerTask id 15))
            ∧ Bot.next_task st' = S (Bot.next_task st)).
Proof.
  unfold Bot.whisper_inline_handler.
  destruct (String.eqb (Bot.iq_query q) EmptyString); [by left|].
  destruct (Py.split_maxsplit1 (Bot.iq_query q)) as [|r [|text [|]]] eqn:Es;
    try by left.
  destruct (split_two_spec _ _ _ Es) as (_ & Hr & Hstart & Htext).
  destruct (Resolver.resolve_user _ _ _) as [rs [[name|]|e]]; try by left.
  destruct (Bot.answer env); try by left.
  right. split; [done|]. simpl.
  match goal with |- context [Bot.store_whisper ?i ?w ?s] =>
    exists w; destruct (store_whisper_spec i w s) as (Hw & He & Ht & Hn & _) end.
  rewrite Hw, He, Ht, Hn, !lookup_insert_eq. simpl.
  repeat split; try done.
  destruct (Py.startswith r "@"); [by apply tail1_no_space|done].
Qed.

(** X2. A query that [split(maxsplit=1)] does not cut into a recipient and
    a text, because it is empty, holds whitespace only or holds a single
    word, changes nothing at all, the resolver included: no request is
    sent. Whitespace is every character Python takes for it, the no-break
    space and the other separators above 127 as well as the ASCII ones. The
    answer, unless sending it fails, is one article without buttons, cached
    for an hour, whose id is EMPTY_ARG for the empty query and USAGE_ERROR
    otherwise. *)
Theorem usage_errors_touch_nothing q env st :
  (∀ r text, Py.split_maxsplit1 (Bot.iq_query q) ≠ [r; text]) →
  fst (Bot.whisper_inline_handler q env st) = st
  ∧ ∃ a, snd (Bot.whisper_inline_handler q env st)
         = Bot.answer_inline (Bot.answer env) [a] 3600 false
         ∧ Bot.art_keyboard a = []
         ∧ Bot.art_id a
           = (if String.eqb (Bot.iq_query q) EmptyString
              then "EMPTY_ARG" else "USAGE_ERROR").
Proof.
  intros Hsplit. unfold Bot.whisper_inline_handler.
  destruct (String.eqb (Bot.iq_query q) EmptyString).
  { split; [done|]. eexists. by repeat split. }
  destruct (Py.split_maxsplit1 (Bot.iq_query q)) as [|r [|text [|]]] eqn:Es;
    try (split; [done|]; eexists; by repeat split).
  by destruct (Hsplit r text).
Qed.

Lemma usage_errors_touch_nothing_witness :
  fst (Bot.whisper_inline_handler (Bot.mkQuery Scenario.alice "@bob")
         Scenario.env_alice Scenario.live) = Scenario.live
  ∧ ∃ a, snd (Bot.whisper_inline_handler (Bot.mkQuery Scenario.alice "@bob")
                Scenario.env_alice Scenario.live)
         = Bot.answer_inline Bot.AnswerTrue [a] 3600 false
         ∧ Bot.art_keyboard a = []
         ∧ Bot.art_id a = "USAGE_ERROR".
Proof.
  apply (usage_errors_touch_nothing (Bot.mkQuery Scenario.alice "@bob")
           Scenario.env_alice Scenario.live).
  intros r text. vm_compute. discriminate.
Defined.

(** A no-break space, an em space or an ideographic space separates the
    recipient from the text as a space does: such a query is no usage
    error, it creates the whisper. *)
Example unicode_space_separates_recipient_and_text :
  Py.split_maxsplit1 ("@bob" +:+ Py.NBSP +:+ "hello") = ["@bob"; "hello"]
  ∧ Py.split_maxsplit1
      (Py.EM_SPACE +:+ "@bob" +:+ Py.IDEOGRAPHIC_SPACE +:+ Py.NBSP +:+ "hello"
       +:+ Py.NBSP)
    = ["@bob"; "hello" +:+ Py.NBSP]
  ∧ Py.split_maxsplit1 ("@bob" +:+ Py.NBSP +:+ Py.EM_SPACE) = ["@bob"]
  ∧ Bot.whisper_inline_handler Scenario.q_nbsp Scenario.env_alice Bot.init
    = Bot.whisper_inline_handler Scenario.q_alice Scenario.env_alice Bot.init
  ∧ Bot.whispers
      (fst (Bot.whisper_inline_handler Scenario.q_nbsp Scenario.env_alice
              Bot.init)) !! Scenario.W1
    = Some Scenario.w_alice.
Proof. repeat split; vm_compute; reflexivity. Qed.

Section InlineRefusal.
Import Bot.

(** The inline handler when the recipient does not resolve. *)
Lemma inline_invalid q env st r text :
  Py.split_maxsplit1 (iq_query q) = [r; text] →
  let handle := if Py.startswith r "@" then Py.tail1 r else r in
  snd (Resolver.resolve_user (net env) (resolver st) handle) = Return None →
  whisper_inline_handler q env st
  = (set_resolver
       (fst (Resolver.resolve_user (net env) (resolver st) handle)) st,
     inline_error (answer env)
       ("INVALID_USERNAME", "❌ Invalid Username", "❌ Invalid Username")).
Proof.
  intros Hsplit handle Hres.
  unfold whisper_inline_handler.
  destruct (String.eqb (iq_query q) EmptyString) eqn:Hq.
  { apply String.eqb_eq in Hq. rewrite Hq in Hsplit. discriminate. }
  rewrite Hsplit. fold handle.
  destruct (Resolver.resolve_user (net env) (resolver st) handle) as [rs res].
  simpl in Hres. by subst res.
Qed.

End InlineRefusal.

(** X3. When the recipient of a query does not resolve, for whatever reason,
    the handler answers INVALID_USERNAME and stores nothing; and a second
    query for the same recipient, with any text and whatever the network
    would say by then, is refused in the same way without a request being
    sent, the failure having been cached. *)
Theorem unresolved_recipient_is_refused_from_cache q env st r text q2 env2 text2 :
  Py.split_maxsplit1 (Bot.iq_query q) = [r; text] →
  Py.split_maxsplit1 (Bot.iq_query q2) = [r; text2] →
  let handle := if Py.startswith r "@" then Py.tail1 r else r in
  snd (Resolver.resolve_user (Bot.net env) (Bot.resolver st) handle)
  = Return None →
  let first := Bot.whisper_inline_handler q env st in
  let second := Bot.whisper_inline_handler q2 env2 (fst first) in
  snd first
  = Bot.inline_error (Bot.answer env)
      ("INVALID_USERNAME", "❌ Invalid Username", "❌ Invalid Username")
  ∧ snd second
    = Bot.inline_error (Bot.answer env2)
        ("INVALID_USERNAME", "❌ Invalid Username", "❌ Invalid Username")
  ∧ Bot.whispers (fst second) = Bot.whispers st
  ∧ Bot.tasks (fst second) = Bot.tasks st
  ∧ Bot.expiring_tasks (fst second) = Bot.expiring_tasks st
  ∧ Resolver.requests (Bot.resolver (fst second))
    = Resolver.requests (Bot.resolver (fst first)).
Proof.
  intros Hs1 Hs2 handle Hres first second.
  pose proof (inline_invalid q env st r text Hs1 Hres) as H1. fold handle in H1.
  destruct (resolve_user_caches (Bot.net env) (Bot.resolver st) handle)
    as (r0 & Hr0 & Hc).
  rewrite Hres in Hr0. injection Hr0 as <-.
  apply cache_get_cached in Hc.
  assert (Bot.resolver (fst first)
          = fst (Resolver.resolve_user (Bot.net env) (Bot.resolver st) handle))
    as Hrs by (subst first; by rewrite H1).
  rewrite <- Hrs in Hc.
  destruct (resolve_user_hit (Bot.net env2) (Bot.resolver (fst first)) handle
              None Hc) as [Hhit Hreq].
  pose proof (inline_invalid q2 env2 (fst first) r text2 Hs2 Hhit) as H2.
  fold handle in H2. subst second. rewrite H2. subst first. rewrite H1.
  simpl. repeat split; try done.
  rewrite H1 in Hreq. exact Hreq.
Qed.

Lemma unresolved_recipient_is_refused_from_cache_witness :
  let q := Bot.mkQuery Scenario.alice "@nobody hello" in
  let q2 := Bot.mkQuery Scenario.eve "@nobody are you there" in
  let first := Bot.whisper_inline_handler q Scenario.env_alice Bot.init in
  let second := Bot.whisper_inline_handler q2 Scenario.env_carol (fst first) in
  snd first
  = Bot.inline_error Bot.AnswerTrue
      ("INVALID_USERNAME", "❌ Invalid Username", "❌ Invalid Username")
  ∧ snd second
    = Bot.inline_error Bot.AnswerTrue
        ("INVALID_USERNAME", "❌ Invalid Username", "❌ Invalid Username")
  ∧ Bot.whispers (fst second) = Bot.whispers Bot.init
  ∧ Bot.tasks (fst second) = Bot.tasks Bot.init
  ∧ Bot.expiring_tasks (fst second) = Bot.expiring_tasks Bot.init
  ∧ Resolver.requests (Bot.resolver (fst second))
    = Resolver.requests (Bot.resolver (fst first)).
Proof.
  apply (unresolved_recipient_is_refused_from_cache
           (Bot.mkQuery Scenario.alice "@nobody hello") Scenario.env_alice
           Bot.init "@nobody" "hello"
           (Bot.mkQuery Scenario.eve "@nobody are you there") Scenario.env_carol
           "are you there"); vm_compute; reflexivity.
Defined.

(** ** From the offered buttons back to the handlers *)

Section Buttons.
Import Bot.

Lemma hex_digit_not_LF d : (d < 16)%N → Ascii.eqb (Py.hex_digit d) Py.LF = false.
Proof.
  intros H. destruct d as [|p]; [done|].
  do 4 (destruct p as [p|p|]; try done); lia.
Qed.

Lemma hex_go_no_LF fuel n acc :
  Py.has_char Py.LF acc = false → Py.has_char Py.LF (Py.hex_go fuel n acc) = false.
Proof.
  revert n acc. induction fuel as [|fuel IH]; intros n acc Hacc; [done|].
  simpl. destruct (n =? 0)%N eqn:E; [done|]. apply IH. simpl.
  rewrite Hacc, orb_false_r. apply hex_digit_not_LF, N.mod_lt. lia.
Qed.

Lemma make_whisper_id_no_LF t a : Py.has_char Py.LF (make_whisper_id t a) = false.
Proof.
  assert (∀ n, Py.has_char Py.LF (Py.format_x n) = false) as Hx.
  { intros n. unfold Py.format_x. destruct (n =? 0)%N; [done|].
    by apply hex_go_no_LF. }
  unfold make_whisper_id. by rewrite !has_char_app, !Hx.
Qed.

Lemma take_line_no_LF s : Py.has_char Py.LF s = false → Text.take_line s = s.
Proof.
  induction s as [|c s IH]; simpl; [done|].
  intros [Hc Hs]%orb_false_iff. rewrite Hc. by rewrite IH.
Qed.

(** The payload of the Save link of a generated id is recognized, and the
    id comes back whole. *)
Lemma deep_link_of_id t a :
  Commands.deep_link_match ("SAVE_" +:+ make_whisper_id t a)
  = Some (make_whisper_id t a).
Proof.
  unfold Commands.deep_link_match.
  change (Py.strip_prefix "SAVE_" ("SAVE_" +:+ make_whisper_id t a))
    with (Some (make_whisper_id t a)).
  simpl. rewrite take_line_no_LF by apply make_whisper_id_no_LF.
  reflexivity.
Qed.

(** The state right after a successful creation holds the new record. *)
Lemma created_is_live q env st r text name :
  Py.split_maxsplit1 (iq_query q) = [r; text] →
  let handle := if Py.startswith r "@" then Py.tail1 r else r in
  snd (Resolver.resolve_user (net env) (resolver st) handle)
  = Return (Some name) →
  answer env = AnswerTrue →
  whispers (fst (whisper_inline_handler q env st))
    !! make_whisper_id (clock env) (fresh_id env)
  = Some (mkWhisper (iq_from_user q) handle (mkStr (fresh_id env) text))
  ∧ snd (whisper_inline_handler q env st)
    = [InlineAnswer
         (whisper_articles (bot_username env)
            (make_whisper_id (clock env) (fresh_id env)) name handle) 3 true].
Proof.
  intros Hsplit handle Hres Hans.
  rewrite (inline_success q env st r text name Hsplit Hres Hans).
  fold handle. simpl. split; [|done].
  match goal with |- context [store_whisper ?i ?w ?s] =>
    destruct (store_whisper_spec i w s) as (Hw & _) end.
  by rewrite Hw, lookup_insert_eq.
Qed.

End Buttons.

(** X4. The callback buttons of a created whisper lead back to it: for every
    button of every article the handler offered, the sender or anyone whose
    handle is the recipient who presses it, with nothing else running in
    between, either is shown the whisper, the state staying as it is, or is
    told that it was expired, the record then being gone. No button of a
    fresh whisper ends in an error. *)
Theorem offered_buttons_work q env st r text name :
  Py.split_maxsplit1 (Bot.iq_query q) = [r; text] →
  let handle := if Py.startswith r "@" then Py.tail1 r else r in
  snd (Resolver.resolve_user (Bot.net env) (Bot.resolver st) handle)
  = Return (Some name) →
  Bot.answer env = Bot.AnswerTrue →
  let id := Bot.make_whisper_id (Bot.clock env) (Bot.fresh_id env) in
  let w := Bot.mkWhisper (Bot.iq_from_user q) handle
             (Bot.mkStr (Bot.fresh_id env) text) in
  let st' := fst (Bot.whisper_inline_handler q env st) in
  ∃ arts, snd (Bot.whisper_inline_handler q env st)
          = [Bot.InlineAnswer arts 3 true]
    ∧ ∀ a row label data u,
        a ∈ arts → row ∈ Bot.art_keyboard a →
        Bot.CallbackButton label data ∈ row → authorized u w →
        Bot.callback_alone u data st' = (st', [revealed w])
        ∨ (snd (Bot.callback_alone u data st') = [expired_ok]
           ∧ Bot.whispers (fst (Bot.callback_alone u data st')) !! id = None).
Proof.
  intros Hsplit handle Hres Hans id w st'.
  destruct (created_is_live q env st r text name Hsplit Hres Hans) as [Hlive Hout].
  fold handle id w st' in Hlive. fold handle id in Hout.
  eexists. split; [exact Hout|].
  intros a row label data u Ha Hrow Hb Hu.
  apply neither_false in Hu.
  assert (data = REVEAL id ∨ data = EXPIRE id) as [->| ->].
  { unfold Bot.whisper_articles in Ha.
    repeat match goal with
           | H : _ ∈ _ :: _ |- _ => apply elem_of_cons in H as [H|H]
           | H : _ ∈ [] |- _ => by apply elem_of_nil in H
           | H : ?x = Bot.mkArticle _ _ _ _ |- _ => is_var x; subst x; simpl in *
           | H : ?x = _ :: _ |- _ => is_var x; subst x; simpl in *
           | H : Bot.CallbackButton _ _ = Bot.CallbackButton _ _ |- _ =>
               inversion H; clear H; subst
           | H : Bot.CallbackButton _ _ = Bot.UrlButton _ _ |- _ => discriminate H
           end; (by left) || (by right). }
  - left. rewrite (reveal_live st' id w u Hlive). by rewrite Hu.
  - right. destruct (expire_live st' id w u Hlive) as [H1 H2].
    by rewrite Hu in H1, H2.
Qed.

Lemma offered_buttons_work_witness :
  let st' := fst (Bot.whisper_inline_handler Scenario.q_alice Scenario.env_alice
                    Bot.init) in
  ∃ arts, snd (Bot.whisper_inline_handler Scenario.q_alice Scenario.env_alice
                 Bot.init)
          = [Bot.InlineAnswer arts 3 true]
    ∧ ∀ a row label data u,
        a ∈ arts → row ∈ Bot.art_keyboard a →
        Bot.CallbackButton label data ∈ row → authorized u Scenario.w_alice →
        Bot.callback_alone u data st' = (st', [revealed Scenario.w_alice])
        ∨ (snd (Bot.callback_alone u data st') = [expired_ok]
           ∧ Bot.whispers (fst (Bot.callback_alone u data st')) !! Scenario.W1
             = None).
Proof.
  apply (offered_buttons_work Scenario.q_alice Scenario.env_alice Bot.init
           "@bob" "the code is 4711" "Bob"); vm_compute; reflexivity.
Defined.

(** X5. The Save button of a created whisper carries the link
    https://t.me/BOT?start=SAVE_ID. Its payload SAVE_ID, sent back as the
    argument of /start, passes the generic start handler, is recognized by
    the deep-link filter with the id coming back whole, and the sender or
    the recipient is sent the whisper with its content. *)
Theorem save_link_round_trip q env st r text name :
  Py.split_maxsplit1 (Bot.iq_query q) = [r; text] →
  let handle := if Py.startswith r "@" then Py.tail1 r else r in
  snd (Resolver.resolve_user (Bot.net env) (Bot.resolver st) handle)
  = Return (Some name) →
  Bot.answer env = Bot.AnswerTrue →
  let id := Bot.make_whisper_id (Bot.clock env) (Bot.fresh_id env) in
  let w := Bot.mkWhisper (Bot.iq_from_user q) handle
             (Bot.mkStr (Bot.fresh_id env) text) in
  let st' := fst (Bot.whisper_inline_handler q env st) in
  ∃ arts, snd (Bot.whisper_inline_handler q env st)
          = [Bot.InlineAnswer arts 3 true]
    ∧ (∃ a row label url, a ∈ arts ∧ row ∈ Bot.art_keyboard a
                          ∧ Bot.UrlButton label url ∈ row)
    ∧ ∀ a row label url u,
        a ∈ arts → row ∈ Bot.art_keyboard a → Bot.UrlButton label url ∈ row →
        url = "https://t.me/" +:+ Bot.bot_username env +:+ "?start="
              +:+ "SAVE_" +:+ id
        ∧ Commands.deep_link_match ("SAVE_" +:+ id) = Some id
        ∧ (authorized u w →
           Commands.on_start u ("SAVE_" +:+ id) st'
           = Commands.Saved [Bot.MessageAnswer (Bot.save_text w)]).
Proof.
  intros Hsplit handle Hres Hans id w st'.
  destruct (created_is_live q env st r text name Hsplit Hres Hans) as [Hlive Hout].
  fold handle id w st' in Hlive. fold handle id in Hout.
  eexists. split; [exact Hout|]. split.
  { eexists _, _, _, _. split; [apply list_elem_of_here|]. simpl.
    split; [apply list_elem_of_here|].
    apply list_elem_of_further, list_elem_of_here. }
  intros a row label url u Ha Hrow Hb.
  assert (url = "https://t.me/" +:+ Bot.bot_username env +:+ "?start="
                +:+ "SAVE_" +:+ id) as ->.
  { unfold Bot.whisper_articles in Ha.
    repeat match goal with
           | H : _ ∈ _ :: _ |- _ => apply elem_of_cons in H as [H|H]
           | H : _ ∈ [] |- _ => by apply elem_of_nil in H
           | H : ?x = Bot.mkArticle _ _ _ _ |- _ => is_var x; subst x; simpl in *
           | H : ?x = _ :: _ |- _ => is_var x; subst x; simpl in *
           | H : Bot.UrlButton _ _ = Bot.CallbackButton _ _ |- _ => discriminate H
           | H : Bot.UrlButton _ _ = Bot.UrlButton _ _ |- _ =>
               inversion H; clear H; subst
           end; reflexivity. }
  split; [done|]. split; [apply deep_link_of_id|].
  intros Hu. apply neither_false in Hu.
  unfold Commands.on_start.
  change (Commands.start_handler ("SAVE_" +:+ id)) with Commands.SkipHandler.
  unfold id at 1. rewrite deep_link_of_id. fold id.
  unfold Bot.start_save_handler. by rewrite Hlive, Hu.
Qed.

Lemma save_link_round_trip_witness :
  let st' := fst (Bot.whisper_inline_handler Scenario.q_alice Scenario.env_alice
                    Bot.init) in
  ∃ arts, snd (Bot.whisper_inline_handler Scenario.q_alice Scenario.env_alice
                 Bot.init)
          = [Bot.InlineAnswer arts 3 true]
    ∧ (∃ a row label url, a ∈ arts ∧ row ∈ Bot.art_keyboard a
                          ∧ Bot.UrlButton label url ∈ row)
    ∧ ∀ a row label url u,
        a ∈ arts → row ∈ Bot.art_keyboard a → Bot.UrlButton label url ∈ row →
        url = "https://t.me/" +:+ "lowvoicebot" +:+ "?start="
              +:+ "SAVE_" +:+ Scenario.W1
        ∧ Commands.deep_link_match ("SAVE_" +:+ Scenario.W1) = Some Scenario.W1
        ∧ (authorized u Scenario.w_alice →
           Commands.on_start u ("SAVE_" +:+ Scenario.W1) st'
           = Commands.Saved [Bot.MessageAnswer (Bot.save_text Scenario.w_alice)]).
Proof.
  apply (save_link_round_trip Scenario.q_alice Scenario.env_alice Bot.init
           "@bob" "the code is 4711" "Bob"); vm_compute; reflexivity.
Defined.

(** ** The /start command *)

Section Start.

Lemma take_line_spec s :
  Py.has_char Py.LF (Text.take_line s) = false
  ∧ ∃ rest, s = Text.take_line s +:+ rest
            ∧ (rest = EmptyString ∨ ∃ rest', rest = String Py.LF rest').
Proof.
  induction s as [|c s (IH1 & rest & IH2 & IH3)]; simpl.
  - split; [done|]. exists EmptyString. by split; [|left].
  - destruct (Ascii.eqb c Py.LF) eqn:E.
    + apply Ascii.eqb_eq in E as ->. split; [done|].
      exists (String Py.LF s). split; [done|]. right. by exists s.
    + simpl. rewrite E, IH1. split; [done|].
      exists rest. split; [|done]. rewrite app_cons. by f_equal.
Qed.

Lemma take_line_app id rest :
  Py.has_char Py.LF id = false →
  rest = EmptyString ∨ (∃ rest', rest = String Py.LF rest') →
  Text.take_line (id +:+ rest) = id.
Proof.
  intros Hid Hrest. induction id as [|c id IH].
  - destruct Hrest as [->|[rest' ->]]; done.
  - simpl in Hid. apply orb_false_iff in Hid as [Hc Hid].
    rewrite app_cons. simpl. rewrite Hc. by rewrite IH.
Qed.

End Start.

(** X6. A /start message is answered by the save handler exactly when its
    argument is SAVE_ followed by at least one character other than a line
    feed; the id handed over is that text up to the first line feed or the
    end. Without argument the message gets the welcome text with the Start
    button; in no case does the welcome text answer a save link. *)
Theorem start_dispatch u args st :
  (args = EmptyString ↔
   ∃ text button q, Commands.on_start u args st = Commands.Welcomed text button q)
  ∧ ∀ out,
      Commands.on_start u args st = Commands.Saved out
      ↔ ∃ id rest,
          args = "SAVE_" +:+ id +:+ rest
          ∧ id ≠ EmptyString ∧ Py.has_char Py.LF id = false
          ∧ (rest = EmptyString ∨ ∃ rest', rest = String Py.LF rest')
          ∧ out = Bot.start_save_handler u id st.
Proof.
  unfold Commands.on_start, Commands.start_handler. split.
  - destruct (String.eqb args EmptyString) eqn:E.
    + apply String.eqb_eq in E. split; [eauto|done].
    + apply String.eqb_neq in E. split; [done|].
      intros (text & button & q & H).
      by destruct (Commands.deep_link_match args).
  - intros out. destruct (String.eqb args EmptyString) eqn:E.
    { apply String.eqb_eq in E as ->. split; [done|].
      by intros (id & rest & H & _). }
    unfold Commands.deep_link_match. split.
    + destruct (Py.strip_prefix "SAVE_" args) as [tail|] eqn:Ep; simpl; [|done].
      apply strip_prefix_app in Ep as ->.
      destruct (take_line_spec tail) as (Hlf & rest & Htail & Hrest).
      destruct (Text.take_line tail) as [|c id] eqn:El; [done|].
      intros [= <-]. exists (String c id), rest.
      split; [by rewrite <- Htail|]. by repeat split.
    + intros (id & rest & -> & Hid & Hlf & Hrest & ->).
      change (Py.strip_prefix "SAVE_" ("SAVE_" +:+ id +:+ rest))
        with (Some (id +:+ rest)).
      simpl. rewrite take_line_app by done. by destruct id.
Qed.

Section Callback.
Import Bot.

Lemma split_char1_none sep s :
  Py.has_char sep s = false → Py.split_char1 sep s = [s].
Proof.
  induction s as [|c s IH]; simpl; [done|].
  intros [Hc Hs]%orb_false_iff. rewrite Hc. by rewrite IH.
Qed.

Lemma split_char1_first sep action id :
  Py.has_char sep action = false →
  Py.split_char1 sep (action +:+ String sep id) = [action; id].
Proof.
  intros H. induction action as [|c a IH].
  - simpl. by rewrite Ascii.eqb_refl.
  - simpl in H. apply orb_false_iff in H as [Hc Ha].
    rewrite app_cons. simpl. rewrite Hc. by rewrite IH.
Qed.

End Callback.

(** X7. Callback data without the separator cannot be split into an action
    and an id: the handler raises ValueError, which its except clause does
    not catch; nothing is answered and nothing is changed. *)
Theorem callback_without_separator_raises u data st :
  Py.has_char "|" data = false →
  Bot.whisper_callback_handler u data st = (st, [Bot.Unhandled ValueError], None).
Proof.
  intros H. unfold Bot.whisper_callback_handler.
  by rewrite split_char1_none.
Qed.

Lemma callback_without_separator_raises_witness :
  Bot.whisper_callback_handler Scenario.alice "REVEAL" Scenario.live
  = (Scenario.live, [Bot.Unhandled ValueError], None).
Proof.
  apply (callback_without_separator_raises Scenario.alice "REVEAL" Scenario.live).
  reflexivity.
Defined.

(** X8. For an action that is neither REVEAL nor EXPIRE, written exactly so,
    the handler still looks the id up and checks the requester first: an
    unknown id is answered as expired or non-existent, a requester who is
    neither the sender's account nor a holder of the recipient handle is
    refused, and only the sender or the recipient of a stored whisper is
    told that the action is unsupported.  The state is the same afterwards
    in every case. *)
Theorem unsupported_action_comes_last u action id st :
  Py.has_char "|" action = false →
  action ≠ "REVEAL" → action ≠ "EXPIRE" →
  Bot.whisper_callback_handler u (action +:+ "|" +:+ id) st
  = (st,
     [match Bot.whispers st !! id with
      | None => not_found_or_expired
      | Some w =>
          if Bot.neither u w then unauthorized
          else Bot.CallbackAnswer Bot.MSG_UNSUPPORTED 1800 false
      end], None)
  ∧ (∀ w, Bot.whispers st !! id = Some w →
       (authorized u w →
        snd (Bot.callback_alone u (action +:+ "|" +:+ id) st)
        = [Bot.CallbackAnswer Bot.MSG_UNSUPPORTED 1800 false])
       ∧ (¬ authorized u w →
          snd (Bot.callback_alone u (action +:+ "|" +:+ id) st)
          = [unauthorized])).
Proof.
  intros Hbar Hr He.
  assert (Bot.whisper_callback_handler u (action +:+ "|" +:+ id) st
          = (st,
             [match Bot.whispers st !! id with
              | None => not_found_or_expired
              | Some w =>
                  if Bot.neither u w then unauthorized
                  else Bot.CallbackAnswer Bot.MSG_UNSUPPORTED 1800 false
              end], None)) as Hh.
  { unfold Bot.whisper_callback_handler.
    change (action +:+ "|" +:+ id) with (action +:+ String "|" id).
    rewrite split_char1_first by done.
    destruct (Bot.whispers st !! id) as [w|]; [|done].
    destruct (Bot.neither u w); [done|].
    apply String.eqb_neq in Hr, He. by rewrite Hr, He. }
  split; [exact Hh|].
  intros w Hw. unfold Bot.callback_alone. rewrite Hh, Hw. simpl. split.
  - intros Hu. apply neither_false in Hu. by rewrite Hu.
  - intros Hu. apply neither_true in Hu. by rewrite Hu.
Qed.

(** The sender, under a new handle, sends an action in lower case. *)
Lemma unsupported_action_comes_last_witness :
  let u := Scenario.alice_renamed in
  let st := Scenario.live in
  Bot.whisper_callback_handler u ("reveal" +:+ "|" +:+ Scenario.W1) st
  = (st,
     [match Bot.whispers st !! Scenario.W1 with
      | None => not_found_or_expired
      | Some w =>
          if Bot.neither u w then unauthorized
          else Bot.CallbackAnswer Bot.MSG_UNSUPPORTED 1800 false
      end], None)
  ∧ (∀ w, Bot.whispers st !! Scenario.W1 = Some w →
       (authorized u w →
        snd (Bot.callback_alone u ("reveal" +:+ "|" +:+ Scenario.W1) st)
        = [Bot.CallbackAnswer Bot.MSG_UNSUPPORTED 1800 false])
       ∧ (¬ authorized u w →
          snd (Bot.callback_alone u ("reveal" +:+ "|" +:+ Scenario.W1) st)
          = [unauthorized])).
Proof.
  apply (unsupported_action_comes_last Scenario.alice_renamed "reveal"
           Scenario.W1 Scenario.live); [reflexivity|discriminate|discriminate].
Defined.

(** In that run the answers are: unsupported for the renamed sender and for
    bob, the refusal for eve. *)
Example unsupported_action_answers :
  snd (Bot.callback_alone Scenario.alice_renamed ("reveal|" +:+ Scenario.W1)
         Scenario.live)
  = [Bot.CallbackAnswer Bot.MSG_UNSUPPORTED 1800 false]
  ∧ snd (Bot.callback_alone Scenario.bob ("reveal|" +:+ Scenario.W1)
           Scenario.live)
    = [Bot.CallbackAnswer Bot.MSG_UNSUPPORTED 1800 false]
  ∧ snd (Bot.callback_alone Scenario.eve ("reveal|" +:+ Scenario.W1)
           Scenario.live)
    = [unauthorized].
Proof. repeat split; vm_compute; reflexivity. Qed.

(** ** Ids and the lifetime of a record *)

(** X9. The id of a whisper tells the clock second and the address it was
    made of: two ids are equal exactly when both numbers are, and each
    hexadecimal part reads back as the number it was formatted from. *)
Theorem whisper_id_names_second_and_address t a t' a' :
  (Bot.make_whisper_id t a = Bot.make_whisper_id t' a' ↔ t = t' ∧ a = a')
  ∧ Py.unhex (Py.format_x t) 0 = t
  ∧ Py.unhex (Py.format_x a) 0 = a.
Proof.
  split; [|split; apply format_x_spec].
  split; [apply make_whisper_id_inj|]. by intros [-> ->].
Qed.

(** X10. In a reachable state, a creation whose text object is none of the
    text objects stored at that moment draws an id under which nothing is
    stored, and leaves every stored whisper in place.  The condition is a
    hypothesis: it holds for a newly made text object and can fail for a
    shared one, see [shared_text_overwrites_a_live_whisper]. *)
Theorem creation_never_overwrites_a_live_whisper st q env k w :
  Bot.reachable st → fresh_object st (Bot.fresh_id env) →
  Bot.whispers st !! Bot.make_whisper_id (Bot.clock env) (Bot.fresh_id env) = None
  ∧ (Bot.whispers st !! k = Some w →
     Bot.whispers (fst (Bot.whisper_inline_handler q env st)) !! k = Some w).
Proof. apply creation_spares_live_whispers. Qed.

Lemma creation_never_overwrites_a_live_whisper_witness :
  let env := Bot.mkEnv "lowvoicebot" Scenario.online 1730000000 140000000000064
               Bot.AnswerTrue in
  Bot.whispers Scenario.live
    !! Bot.make_whisper_id (Bot.clock env) (Bot.fresh_id env) = None
  ∧ (Bot.whispers Scenario.live !! Scenario.W1 = Some Scenario.w_alice →
     Bot.whispers (fst (Bot.whisper_inline_handler Scenario.q_carol env
                          Scenario.live)) !! Scenario.W1
     = Some Scenario.w_alice).
Proof.
  apply (creation_never_overwrites_a_live_whisper Scenario.live Scenario.q_carol
           (Bot.mkEnv "lowvoicebot" Scenario.online 1730000000 140000000000064
              Bot.AnswerTrue) Scenario.W1 Scenario.w_alice).
  - exists [Bot.Inline Scenario.q_alice Scenario.env_alice]. reflexivity.
  - intros k w Hk.
    assert (Bot.whispers Scenario.live = {[Scenario.W1 := Scenario.w_alice]})
      as E by (vm_compute; reflexivity).
    rewrite E in Hk. apply lookup_singleton_Some in Hk as [_ <-].
    discriminate.
Defined.

(** Where the condition fails.  Alice whispers the one character k to bob
    and, in the same second, carol whispers k to alice.  Both texts are the
    one object CPython keeps for that character, both creations draw the
    same id, and the second record replaces the first while it is stored:
    bob, pressing the button under alice's message, is refused. *)
Example shared_text_overwrites_a_live_whisper :
  let st1 := fst (Bot.step Bot.init (Bot.Inline Scenario.q_alice_k Scenario.env_k)) in
  let st2 := fst (Bot.step st1 (Bot.Inline Scenario.q_carol_k Scenario.env_k)) in
  Bot.whispers st1
  = {[ Scenario.WK := Bot.mkWhisper Scenario.alice "bob" (Bot.mkStr 9801416 "k") ]}
  ∧ ¬ fresh_object st1 (Bot.fresh_id Scenario.env_k)
  ∧ Bot.whispers st2
    = {[ Scenario.WK := Bot.mkWhisper Scenario.carol "alice" (Bot.mkStr 9801416 "k") ]}
  ∧ snd (Bot.callback_alone Scenario.bob (REVEAL Scenario.WK) st2) = [unauthorized].
Proof.
  intros st1 st2.
  assert (Bot.whispers st1
          = {[ Scenario.WK
               := Bot.mkWhisper Scenario.alice "bob" (Bot.mkStr 9801416 "k") ]})
    as E1 by (vm_compute; reflexivity).
  split; [exact E1|]. split.
  - intros H. apply (H Scenario.WK _ ltac:(rewrite E1; apply lookup_singleton_eq)).
    reflexivity.
  - split; vm_compute; reflexivity.
Qed.

(** X11. Once an id is not in the store, whether it never was or was popped,
    it stays out through any run of queries, callbacks, save requests and
    wake-ups in which no creation draws that very id; every reveal, expire
    or save request on it is then answered as expired or non-existent and
    changes nothing. *)
Theorem absent_id_stays_absent es st id u :
  Bot.whispers st !! id = None → Forall (λ e, ¬ creates id e) es →
  let st' := fst (Bot.run st es) in
  Bot.whispers st' !! id = None
  ∧ Bot.callback_alone u (REVEAL id) st' = (st', [not_found_or_expired])
  ∧ Bot.callback_alone u (EXPIRE id) st' = (st', [not_found_or_expired])
  ∧ Bot.start_save_handler u id st'
    = [Bot.MessageReply Bot.MSG_EXPIRED_OR_NONEXISTENT].
Proof. apply absent_stays_absent. Qed.

Lemma absent_id_stays_absent_witness :
  let es := [Bot.Callback Scenario.eve (REVEAL Scenario.W1); Bot.Wake 0;
             Bot.Inline Scenario.q_carol
               (Bot.mkEnv "lowvoicebot" Scenario.online 1730000001
                  140000000000000 Bot.AnswerTrue);
             Bot.StartSave Scenario.bob Scenario.W1] in
  let st' := fst (Bot.run Scenario.expired es) in
  Bot.whispers st' !! Scenario.W1 = None
  ∧ Bot.callback_alone Scenario.alice (REVEAL Scenario.W1) st'
    = (st', [not_found_or_expired])
  ∧ Bot.callback_alone Scenario.alice (EXPIRE Scenario.W1) st'
    = (st', [not_found_or_expired])
  ∧ Bot.start_save_handler Scenario.alice Scenario.W1 st'
    = [Bot.MessageReply Bot.MSG_EXPIRED_OR_NONEXISTENT].
Proof.
  apply (absent_id_stays_absent
           [Bot.Callback Scenario.eve (REVEAL Scenario.W1); Bot.Wake 0;
            Bot.Inline Scenario.q_carol
              (Bot.mkEnv "lowvoicebot" Scenario.online 1730000001
                 140000000000000 Bot.AnswerTrue);
            Bot.StartSave Scenario.bob Scenario.W1]
           Scenario.expired Scenario.W1 Scenario.alice).
  - vm_compute. reflexivity.
  - repeat constructor; simpl; try tauto.
    intros H. vm_compute in H. discriminate H.
Defined.

(** X12. Two expires of a stored whisper run one after the other, the first
    by its sender or recipient: the first is answered as successful, the
    second, by whomever, as expired or non-existent, and the second leaves
    the state exactly as the first left it. *)
Theorem expires_one_after_the_other st id w u1 u2 :
  Bot.whispers st !! id = Some w → authorized u1 w →
  let first := Bot.callback_alone u1 (EXPIRE id) st in
  snd first = [expired_ok]
  ∧ Bot.callback_alone u2 (EXPIRE id) (fst first)
    = (fst first, [not_found_or_expired]).
Proof. apply expire_twice_in_a_row. Qed.

Lemma expires_one_after_the_other_witness :
  let first := Bot.callback_alone Scenario.bob (EXPIRE Scenario.W1) Scenario.live in
  snd first = [expired_ok]
  ∧ Bot.callback_alone Scenario.alice (EXPIRE Scenario.W1) (fst first)
    = (fst first, [not_found_or_expired]).
Proof.
  apply (expires_one_after_the_other Scenario.live Scenario.W1 Scenario.w_alice
           Scenario.bob Scenario.alice).
  - vm_compute. reflexivity.
  - right. reflexivity.
Defined.

(** X13. Two expires of a stored whisper, both by its sender or recipient,
    that overlap, the second starting while the first sleeps before its
    pop: in any state the first one is answered as successful, and the
    second one raises KeyError at its pop and sends no answer. *)
Theorem second_overlapping_expire_raises st id w u1 u2 :
  Bot.whispers st !! id = Some w → authorized u1 w → authorized u2 w →
  snd (Bot.run st [Bot.Callback u1 (EXPIRE id); Bot.Callback u2 (EXPIRE id);
                   Bot.Wake (Bot.next_task st); Bot.Wake (S (Bot.next_task st))])
  = [expired_ok; Bot.Unhandled KeyError].
Proof. apply overlapping_expires. Qed.

Lemma second_overlapping_expire_raises_witness :
  snd (Bot.run Scenario.live
         [Bot.Callback Scenario.bob (EXPIRE Scenario.W1);
          Bot.Callback Scenario.alice (EXPIRE Scenario.W1);
          Bot.Wake (Bot.next_task Scenario.live);
          Bot.Wake (S (Bot.next_task Scenario.live))])
  = [expired_ok; Bot.Unhandled KeyError].
Proof.
  apply (second_overlapping_expire_raises Scenario.live Scenario.W1
           Scenario.w_alice Scenario.bob Scenario.alice).
  - vm_compute. reflexivity.
  - right. reflexivity.
  - left. reflexivity.
Defined.

(** X14. In every reachable state at most one 15-second task is asleep for
    an id, and it is the one registered in expiring_tasks under that id. *)
Theorem at_most_one_sleeping_timer_per_id st t1 t2 id s1 s2 :
  Bot.reachable st →
  Bot.tasks st !! t1 = Some (Bot.Suspended (Bot.TimerTask id s1)) →
  Bot.tasks st !! t2 = Some (Bot.Suspended (Bot.TimerTask id s2)) →
  t1 = t2 ∧ Bot.expiring_tasks st !! id = Some t1.
Proof. apply one_timer_per_id. Qed.

Lemma at_most_one_sleeping_timer_per_id_witness :
  0%nat = 0%nat ∧ Bot.expiring_tasks Scenario.live !! Scenario.W1 = Some 0%nat.
Proof.
  apply (at_most_one_sleeping_timer_per_id Scenario.live 0 0 Scenario.W1 15 15).
  - exists [Bot.Inline Scenario.q_alice Scenario.env_alice]. reflexivity.
  - vm_compute. reflexivity.
  - vm_compute. reflexivity.
Defined.

(** ** Every stored whisper is on its way out *)

Section WellFormed.
Import Bot.

Local Abbreviation cancelled st id :=
  (match expiring_tasks st !! id with
   | Some t0 => alter cancel t0 (tasks st)
   | None => tasks st
   end).

Lemma cancelled_suspended st id t f :
  cancelled st id !! t = Some (Suspended f)
  ↔ tasks st !! t = Some (Suspended f) ∧ expiring_tasks st !! id ≠ Some t.
Proof.
  destruct (expiring_tasks st !! id) as [t0|] eqn:E; [|by split; [|intros []]].
  rewrite lookup_alter. case_decide as Heq.
  - subst t0. split.
    + destruct (tasks st !! t) as [ts|]; [|done]. simpl. intros [= H].
      by apply cancel_not_suspended in H.
    + by intros [_ H].
  - split; [|by intros []]. intros H. split; [done|]. congruence.
Qed.

Lemma cancelled_is_Some st id t :
  is_Some (tasks st !! t) → is_Some (cancelled st id !! t).
Proof.
  intros H. destruct (expiring_tasks st !! id) as [t0|]; [|done].
  rewrite lookup_alter. case_decide; [subst|done]. by apply fmap_is_Some.
Qed.

Lemma known_task_below st t :
  tasks_below_next st → is_Some (tasks st !! t) → t ≠ next_task st.
Proof. intros Hb Hs ->. rewrite Hb in Hs by lia. by destruct Hs. Qed.

(** A task that was asleep for another id is still asleep after the
    synchronous part of [expire_whisper id] and the new task. *)
Lemma other_frames_sleep_on st id f0 t f :
  tasks_below_next st → handles_point_home st →
  tasks st !! t = Some (Suspended f) → frame_id f ≠ id →
  <[next_task st := Suspended f0]> (cancelled st id) !! t = Some (Suspended f).
Proof.
  intros Hb Hc Htf Hid.
  rewrite lookup_insert_ne by (symmetry; apply (known_task_below st t); eauto).
  apply cancelled_suspended. split; [done|]. intros Hreg.
  destruct (Hc id t Hreg) as [_ Hhome]. specialize (Hhome f Htf).
  subst f. by simpl in Hid.
Qed.

Lemma wf_store id w st : well_formed st → well_formed (store_whisper id w st).
Proof.
  intros (Ha & Hb & Hc & Hd & He).
  destruct (store_whisper_inv id w st (conj Ha Hb)) as [Ha' Hb'].
  destruct (store_whisper_spec id w st) as (Hw & Hex & Ht & Hn & _).
  split; [done|]. split; [done|]. split; [|split].
  - intros id' t. rewrite Hex, Ht. intros Hl.
    destruct (decide (id' = id)) as [->|Hne].
    + rewrite lookup_insert_eq in Hl. injection Hl as <-.
      rewrite lookup_insert_eq. split; [eauto|]. by intros f [= <-].
    + rewrite lookup_insert_ne in Hl by done. destruct (Hc id' t Hl) as [Hs Hf].
      rewrite lookup_insert_ne by (symmetry; by apply known_task_below).
      split; [by apply cancelled_is_Some|].
      intros f Hf'. apply cancelled_suspended in Hf' as [Hf' _]. by apply Hf.
  - intros t f. rewrite Ht. intros Hl.
    destruct (decide (t = next_task st)) as [->|Hnt].
    + rewrite lookup_insert_eq in Hl. injection Hl as <-. by left.
    + rewrite lookup_insert_ne in Hl by done.
      apply cancelled_suspended in Hl as [Hl _]. by apply (Hd t).
  - intros k w'. rewrite Hw, Ht. intros Hl.
    destruct (decide (k = id)) as [->|Hne].
    + exists (next_task st), (TimerTask id 15). by rewrite lookup_insert_eq.
    + rewrite lookup_insert_ne in Hl by done.
      destruct (He k w' Hl) as (t & f & Htf & Hfid).
      exists t, f. split; [|done].
      apply other_frames_sleep_on; try done. congruence.
Qed.

Lemma wf_inline q env st :
  well_formed st → well_formed (fst (whisper_inline_handler q env st)).
Proof.
  intros Hwf. unfold whisper_inline_handler.
  destruct (String.eqb (iq_query q) EmptyString); [done|].
  destruct (Py.split_maxsplit1 (iq_query q)) as [|r [|text [|]]]; try done.
  destruct (Resolver.resolve_user _ _ _) as [rs [[name|]|e]]; try done.
  destruct (answer env); try done.
  simpl. by apply wf_store.
Qed.

Lemma wf_callback u data st :
  well_formed st → well_formed (fst (fst (whisper_callback_handler u data st))).
Proof.
  intros Hwf. pose proof Hwf as (Ha & Hb & Hc & Hd & He).
  destruct (callback_inv u data st (conj Ha Hb)) as [Ha' Hb'].
  split; [done|]. split; [done|]. clear Ha' Hb'.
  unfold whisper_callback_handler.
  destruct (Py.split_char1 "|" data) as [|action [|id [|]]];
    try (split; [exact Hc|split; [exact Hd|exact He]]).
  destruct (whispers st !! id) as [w|]; [|split; [exact Hc|split; [exact Hd|exact He]]].
  destruct (neither u w); [split; [exact Hc|split; [exact Hd|exact He]]|].
  destruct (String.eqb action "REVEAL"); [split; [exact Hc|split; [exact Hd|exact He]]|].
  destruct (String.eqb action "EXPIRE"); [|split; [exact Hc|split; [exact Hd|exact He]]].
  assert (fst (expire_whisper id 0 st)
          = {| whispers := whispers st;
               expiring_tasks := delete id (expiring_tasks st);
               tasks := cancelled st id;
               next_task := next_task st;
               resolver := resolver st |}) as Hst1.
  { unfold expire_whisper. destruct (expiring_tasks st !! id) eqn:E; [done|].
    simpl. rewrite delete_id by done. by destruct st. }
  pose proof (expire_whisper_coro id 0 st) as Hco.
  destruct (expire_whisper id 0 st) as [st1 [id' s']].
  simpl in Hst1, Hco. injection Hco as -> ->. subst st1. simpl.
  split; [|split].
  - intros id' t. simpl. rewrite lookup_delete_Some. intros [Hne Hl].
    destruct (Hc id' t Hl) as [Hs Hf].
    rewrite lookup_insert_ne by (symmetry; by apply known_task_below).
    split; [by apply cancelled_is_Some|].
    intros f Hf'. apply cancelled_suspended in Hf' as [Hf' _]. by apply Hf.
  - intros t f. simpl. intros Hl.
    destruct (decide (t = next_task st)) as [->|Hnt].
    + rewrite lookup_insert_eq in Hl. injection Hl as <-. by right.
    + rewrite lookup_insert_ne in Hl by done.
      apply cancelled_suspended in Hl as [Hl _]. by apply (Hd t).
  - intros k w'. simpl. intros Hl.
    destruct (decide (k = id)) as [->|Hne].
    + exists (next_task st), (CallbackExpire id 0). by rewrite lookup_insert_eq.
    + destruct (He k w' Hl) as (t & f & Htf & Hfid).
      exists t, f. split; [|done].
      apply other_frames_sleep_on; try done. congruence.
Qed.

Lemma wf_resume t st : well_formed st → well_formed (fst (resume t st)).
Proof.
  intros Hwf. pose proof Hwf as (Ha & Hb & Hc & Hd & He).
  destruct (resume_inv t st (conj Ha Hb)) as [Ha' Hb'].
  split; [done|]. split; [done|]. clear Ha' Hb'.
  unfold resume.
  destruct (tasks st !! t) as [[f| | |e]|] eqn:Et; try (split; [exact Hc|split; [exact Hd|exact He]]).
  assert (∀ ts, (∀ f', ts ≠ Suspended f') →
            ∀ t' f', <[t := ts]> (tasks st) !! t' = Some (Suspended f') →
                     tasks st !! t' = Some (Suspended f') ∧ t' ≠ t) as Hset.
  { intros ts Hts t' f'. destruct (decide (t' = t)) as [->|Hne].
    - rewrite lookup_insert_eq. intros [= ->]. by destruct (Hts f').
    - by rewrite lookup_insert_ne. }
  unfold pop_whisper. destruct (whispers st !! frame_id f) eqn:Ew; simpl.
  - split; [|split].
    + intros id' t' Hl. simpl in *. destruct (Hc id' t' Hl) as [Hs Hf].
      split.
      * destruct (decide (t' = t)) as [->|Hne];
          [by rewrite lookup_insert_eq|by rewrite lookup_insert_ne].
      * intros f' Hf'. apply Hset in Hf' as [Hf' _]; [by apply Hf|done].
    + intros t' f' Hf'. simpl in Hf'.
      apply Hset in Hf' as [Hf' _]; [by apply (Hd t')|done].
    + intros k w'. simpl. rewrite lookup_delete_Some. intros [Hne Hl].
      destruct (He k w' Hl) as (t1 & f1 & Htf & Hfid).
      exists t1, f1. split; [|done].
      rewrite lookup_insert_ne; [done|]. intros <-. congruence.
  - split; [|split].
    + intros id' t' Hl. simpl in *. destruct (Hc id' t' Hl) as [Hs Hf].
      split.
      * destruct (decide (t' = t)) as [->|Hne];
          [by rewrite lookup_insert_eq|by rewrite lookup_insert_ne].
      * intros f' Hf'. apply Hset in Hf' as [Hf' _]; [by apply Hf|done].
    + intros t' f' Hf'. simpl in Hf'.
      apply Hset in Hf' as [Hf' _]; [by apply (Hd t')|done].
    + intros k w'. simpl. intros Hl.
      destruct (He k w' Hl) as (t1 & f1 & Htf & Hfid).
      exists t1, f1. split; [|done].
      rewrite lookup_insert_ne; [done|]. intros <-. congruence.
Qed.

Lemma wf_step st e : well_formed st → well_formed (fst (step st e)).
Proof.
  intros Hwf. destruct e as [q env|u data|u id|t]; simpl.
  - by apply wf_inline.
  - pose proof (wf_callback u data st Hwf) as H.
    by destruct (whisper_callback_handler u data st) as [[st1 out] k].
  - done.
  - by apply wf_resume.
Qed.

Lemma wf_run es st : well_formed st → well_formed (fst (run st es)).
Proof.
  revert st. induction es as [|e es IH]; intros st Hwf; [done|].
  simpl. pose proof (wf_step st e Hwf) as H1.
  destruct (step st e) as [st1 out1]. specialize (IH st1 H1).
  by destruct (run st1 es).
Qed.

Lemma wf_init : well_formed init.
Proof.
  split; [|split; [|split; [|split]]].
  - intros t id s H. simpl in H. by rewrite lookup_empty in H.
  - intros t _. simpl. apply lookup_empty.
  - intros id t H. simpl in H. by rewrite lookup_empty in H.
  - intros t f H. simpl in H. by rewrite lookup_empty in H.
  - intros id w H. simpl in H. by rewrite lookup_empty in H.
Qed.

End WellFormed.

(** X15. After any run of queries, callbacks, save requests and wake-ups
    from the initial state, every stored whisper has a suspended task that
    is going to pop it; every suspended task is a timer sleeping 15 seconds
    or an explicit expire sleeping 0 seconds; and a handle registered in
    expiring_tasks refers to a known task which, if it is asleep, is the
    15-second timer of the id it is registered under. *)
Theorem stored_whispers_are_on_their_way_out es :
  let st := fst (Bot.run Bot.init es) in
  removal_pending st ∧ frames_as_armed st ∧ handles_point_home st.
Proof.
  destruct (wf_run es Bot.init wf_init) as (_ & _ & Hc & Hd & He). done.
Qed.

Section ExpireAlone.
Import Bot.

(** The state an authorized expire leaves when nothing runs in between. *)
Lemma expire_alone_state st id w u :
  whispers st !! id = Some w → authorized u w →
  callback_alone u (EXPIRE id) st
  = ({| whispers := delete id (whispers st);
        expiring_tasks := delete id (expiring_tasks st);
        tasks := <[next_task st := Finished]>
                   (<[next_task st := Suspended (CallbackExpire id 0)]>
                      (match expiring_tasks st !! id with
                       | Some t => alter cancel t (tasks st)
                       | None => tasks st
                       end));
        next_task := S (next_task st);
        resolver := resolver st |}, [expired_ok]).
Proof.
  intros Hw Hu. unfold callback_alone.
  rewrite (expire_start st id w u Hw Hu).
  unfold resume. simpl. rewrite lookup_insert_eq.
  unfold pop_whisper. simpl. by rewrite Hw.
Qed.

End ExpireAlone.

(** X16. An expire by the sender or the recipient, run with nothing in
    between in a reachable state, removes the record and the registered
    handle of that id and of no other id; afterwards no timer of the id is
    asleep, so none can fire on the removed record, and every task that
    was asleep for another id still is. *)
Theorem explicit_expire_is_local es id w u :
  let st := fst (Bot.run Bot.init es) in
  Bot.whispers st !! id = Some w → authorized u w →
  let st' := fst (Bot.callback_alone u (EXPIRE id) st) in
  Bot.whispers st' = delete id (Bot.whispers st)
  ∧ Bot.expiring_tasks st' = delete id (Bot.expiring_tasks st)
  ∧ (∀ t s, Bot.tasks st' !! t ≠ Some (Bot.Suspended (Bot.TimerTask id s)))
  ∧ (∀ t f, Bot.frame_id f ≠ id →
            Bot.tasks st !! t = Some (Bot.Suspended f) →
            Bot.tasks st' !! t = Some (Bot.Suspended f)).
Proof.
  intros st Hw Hu st'.
  destruct (wf_run es Bot.init wf_init) as (Ha & Hb & Hc & _). fold st in Ha, Hb, Hc.
  subst st'. rewrite (expire_alone_state st id w u Hw Hu). simpl.
  split; [done|]. split; [done|]. split.
  - intros t s. destruct (decide (t = Bot.next_task st)) as [->|Hne].
    + by rewrite lookup_insert_eq.
    + rewrite !lookup_insert_ne by done. intros H.
      apply cancelled_timers in H as [Hid _]; done.
  - intros t f Hid Htf.
    assert (t ≠ Bot.next_task st) as Hne by (apply known_task_below; eauto).
    rewrite lookup_insert_ne by done.
    by apply other_frames_sleep_on.
Qed.

(** Alice's and carol's whispers are stored; bob expires alice's. *)
Lemma explicit_expire_is_local_witness :
  let st := fst (Bot.run Bot.init
                   [Bot.Inline Scenario.q_alice Scenario.env_alice;
                    Bot.Inline Scenario.q_carol Scenario.env_carol_apart]) in
  let st' := fst (Bot.callback_alone Scenario.bob (EXPIRE Scenario.W1) st) in
  Bot.whispers st' = delete Scenario.W1 (Bot.whispers st)
  ∧ Bot.expiring_tasks st' = delete Scenario.W1 (Bot.expiring_tasks st)
  ∧ (∀ t s, Bot.tasks st' !! t
            ≠ Some (Bot.Suspended (Bot.TimerTask Scenario.W1 s)))
  ∧ (∀ t f, Bot.frame_id f ≠ Scenario.W1 →
            Bot.tasks st !! t = Some (Bot.Suspended f) →
            Bot.tasks st' !! t = Some (Bot.Suspended f)).
Proof.
  apply (explicit_expire_is_local
           [Bot.Inline Scenario.q_alice Scenario.env_alice;
            Bot.Inline Scenario.q_carol Scenario.env_carol_apart]
           Scenario.W1 Scenario.w_alice Scenario.bob).
  - vm_compute. reflexivity.
  - right. reflexivity.
Defined.

(** In that run carol's whisper, its registration and its sleeping timer are
    what the expire leaves behind. *)
Example expire_spares_the_other_whisper :
  let st' := fst (Bot.callback_alone Scenario.bob (EXPIRE Scenario.W1)
                    Scenario.two_live) in
  Bot.whispers Scenario.two_live !! Scenario.W1 = Some Scenario.w_alice
  ∧ Bot.whispers st' !! Scenario.W1 = None
  ∧ Bot.whispers st' !! Scenario.W2
    = Some (Bot.mkWhisper Scenario.carol "alice"
              (Bot.mkStr 140000000000064 "lunch?"))
  ∧ Bot.expiring_tasks st' !! Scenario.W1 = None
  ∧ Bot.expiring_tasks st' !! Scenario.W2 = Some 1%nat
  ∧ Bot.tasks st' !! 0%nat = Some Bot.Cancelled
  ∧ Bot.tasks st' !! 1%nat
    = Some (Bot.Suspended (Bot.TimerTask Scenario.W2 15)).
Proof. repeat split; vm_compute; reflexivity. Qed.

(** X17. When the 15-second task of a freshly created whisper wakes up, the
    record is popped without any message being sent; the store is then what
    it was before the creation, minus whatever had been stored under that
    id; the task is finished; and every reveal or save request on the id,
    the sender's included, is answered as expired or non-existent. *)
Theorem created_whisper_times_out q env st r text name :
  Py.split_maxsplit1 (Bot.iq_query q) = [r; text] →
  let handle := if Py.startswith r "@" then Py.tail1 r else r in
  snd (Resolver.resolve_user (Bot.net env) (Bot.resolver st) handle)
  = Return (Some name) →
  Bot.answer env = Bot.AnswerTrue →
  let id := Bot.make_whisper_id (Bot.clock env) (Bot.fresh_id env) in
  let created := fst (Bot.whisper_inline_handler q env st) in
  let fired := Bot.step created (Bot.Wake (Bot.next_task st)) in
  snd fired = []
  ∧ Bot.whispers (fst fired) = delete id (Bot.whispers st)
  ∧ Bot.tasks (fst fired) !! Bot.next_task st = Some Bot.Finished
  ∧ ∀ u, Bot.callback_alone u (REVEAL id) (fst fired)
         = (fst fired, [not_found_or_expired])
         ∧ Bot.start_save_handler u id (fst fired)
           = [Bot.MessageReply Bot.MSG_EXPIRED_OR_NONEXISTENT].
Proof.
  intros Hsplit handle Hres Hans id created fired.
  subst fired created.
  rewrite (inline_success q env st r text name Hsplit Hres Hans).
  fold handle id. simpl fst.
  match goal with |- context [Bot.store_whisper ?i ?w0 ?s] =>
    destruct (store_whisper_spec i w0 s) as (Hw & He & Ht & _);
    set (w := w0) in *;
    set (st1 := Bot.store_whisper i w s) in * end.
  simpl in Hw, Ht.
  cbn [Bot.step].
  assert (Bot.resume (Bot.next_task st) st1
          = (Bot.set_task (Bot.next_task st) Bot.Finished
               {| Bot.whispers := delete id (Bot.whispers st1);
                  Bot.expiring_tasks := Bot.expiring_tasks st1;
                  Bot.tasks := Bot.tasks st1;
                  Bot.next_task := Bot.next_task st1;
                  Bot.resolver := Bot.resolver st1 |}, [])) as ->.
  { assert (Bot.tasks st1 !! Bot.next_task st
            = Some (Bot.Suspended (Bot.TimerTask id 15))) as Hn
      by (rewrite Ht; apply lookup_insert_eq).
    assert (Bot.whispers st1 !! id = Some w) as Hl
      by (rewrite Hw; apply lookup_insert_eq).
    unfold Bot.resume. rewrite Hn. simpl.
    unfold Bot.pop_whisper. by rewrite Hl. }
  unfold Bot.set_task.
  cbn [fst snd Bot.whispers Bot.tasks Bot.expiring_tasks Bot.next_task].
  rewrite Hw, delete_insert_eq, lookup_insert_eq.
  repeat split; try done.
  - apply reveal_absent. cbn [Bot.whispers]. apply lookup_delete_eq.
  - unfold Bot.start_save_handler. cbn [Bot.whispers].
    by rewrite lookup_delete_eq.
Qed.

Lemma created_whisper_times_out_witness :
  let created := fst (Bot.whisper_inline_handler Scenario.q_alice
                        Scenario.env_alice Bot.init) in
  let fired := Bot.step created (Bot.Wake (Bot.next_task Bot.init)) in
  snd fired = []
  ∧ Bot.whispers (fst fired) = delete Scenario.W1 (Bot.whispers Bot.init)
  ∧ Bot.tasks (fst fired) !! Bot.next_task Bot.init = Some Bot.Finished
  ∧ ∀ u, Bot.callback_alone u (REVEAL Scenario.W1) (fst fired)
         = (fst fired, [not_found_or_expired])
         ∧ Bot.start_save_handler u Scenario.W1 (fst fired)
           = [Bot.MessageReply Bot.MSG_EXPIRED_OR_NONEXISTENT].
Proof.
  apply (created_whisper_times_out Scenario.q_alice Scenario.env_alice Bot.init
           "@bob" "the code is 4711" "Bob"); vm_compute; reflexivity.
Defined.

(** ** The profile page, the token and the cache *)

Section Search.

Lemma strip_prefix_here p r : Py.strip_prefix p (p +:+ r) = Some r.
Proof.
  induction p as [|c p IH]; [by destruct r|].
  rewrite app_cons. simpl. by rewrite Ascii.eqb_refl.
Qed.

Lemma lazy_group_complete close g post :
  g ≠ EmptyString → Py.has_char Py.LF g = false →
  is_Some (Py.lazy_group close (g +:+ close +:+ post)).
Proof.
  induction g as [|c g IH]; [done|]. intros _ Hlf.
  simpl in Hlf. apply orb_false_iff in Hlf as [Hc Hg].
  rewrite app_cons. simpl. rewrite Hc.
  destruct (Py.startswith (g +:+ close +:+ post) close) eqn:Es; [eauto|].
  destruct g as [|c' g'].
  - unfold Py.startswith in Es.
    change (EmptyString +:+ close +:+ post) with (close +:+ post) in Es.
    by rewrite strip_prefix_here in Es.
  - destruct (IH ltac:(done) Hg) as [g'' ->]. simpl. eauto.
Qed.

Lemma search_unfold s :
  Py.search_group1 s
  = match Py.match_here s with
    | Some g => Some g
    | None =>
        match s with
        | String _ s' => Py.search_group1 s'
        | EmptyString => None
        end
    end.
Proof. by destruct s. Qed.

End Search.

(** X18. A page that holds the opening tag, then a non-empty text without
    line feed, then the closing tag, anywhere in it, always yields a name:
    with status 200 the lookup returns some display name and not None, and
    that name is again a non-empty text without line feed that stands
    between an opening and a closing tag of the page. *)
Theorem titled_page_resolves pre g post :
  g ≠ EmptyString → Py.has_char Py.LF g = false →
  let page := pre +:+ Py.RE_OPEN +:+ g +:+ Py.RE_CLOSE +:+ post in
  ∃ name,
    Resolver.resolve_user_body (Resolver.Response 200 (Return page))
    = Return (Some name)
    ∧ name ≠ EmptyString ∧ Py.has_char Py.LF name = false
    ∧ ∃ pre' post',
        page = pre' +:+ Py.RE_OPEN +:+ name +:+ Py.RE_CLOSE +:+ post'.
Proof.
  intros Hg Hlf page.
  assert (is_Some (Py.search_group1 page)) as [name Hname].
  { subst page. induction pre as [|c pre IH].
    - rewrite search_unfold. unfold Py.match_here.
      change (EmptyString +:+ Py.RE_OPEN +:+ g +:+ Py.RE_CLOSE +:+ post)
        with (Py.RE_OPEN +:+ g +:+ Py.RE_CLOSE +:+ post).
      rewrite strip_prefix_here. simpl.
      destruct (lazy_group_complete Py.RE_CLOSE g post Hg Hlf) as [g' ->]. eauto.
    - rewrite search_unfold, app_cons.
      destruct (Py.match_here _); eauto. }
  exists name. split.
  - rewrite resolve_user_body_cases. simpl. by rewrite Hname.
  - by apply search_group1_sound.
Qed.

Lemma titled_page_resolves_witness :
  let page := "<html>" +:+ Py.RE_OPEN +:+ "Bob" +:+ Py.RE_CLOSE +:+ "</html>" in
  ∃ name,
    Resolver.resolve_user_body (Resolver.Response 200 (Return page))
    = Return (Some name)
    ∧ name ≠ EmptyString ∧ Py.has_char Py.LF name = false
    ∧ ∃ pre' post',
        page = pre' +:+ Py.RE_OPEN +:+ name +:+ Py.RE_CLOSE +:+ post'.
Proof.
  apply (titled_page_resolves "<html>" "Bob" "</html>"); [discriminate|reflexivity].
Defined.

Section Token.

Lemma lstrip_app_space x rest :
  Py.lstrip x = EmptyString → Py.lstrip (x +:+ rest) = Py.lstrip rest.
Proof.
  induction x as [x IH] using string_ind3.
  destruct x as [|c1 [|c2 [|c3 r]]]; [done|..]; rewrite ?app_cons; simpl.
  - destruct (Py.isspace c1) eqn:E1; [done|]. by destruct rest as [|? [|]].
  - destruct (Py.isspace c1) eqn:E1.
    { intros H. apply (IH (String c2 EmptyString)); [simpl; lia|done]. }
    destruct (Py.is_space2 c1 c2) eqn:E2; [done|]. by destruct rest.
  - destruct (Py.isspace c1) eqn:E1.
    { intros H. apply (IH (String c2 (String c3 r))); [simpl; lia|done]. }
    destruct (Py.is_space2 c1 c2) eqn:E2.
    { intros H. apply (IH (String c3 r)); [simpl; lia|done]. }
    destruct (Py.is_space3 c1 c2 c3) eqn:E3; [|done].
    intros H. apply (IH r); [simpl; lia|done].
Qed.

Lemma only_space_lstrip s : Text.only_space s = true ↔ Py.lstrip s = EmptyString.
Proof. unfold Text.only_space. by destruct (Py.lstrip s). Qed.

Lemma rstrip_unfold c s :
  Text.rstrip (String c s)
  = if Text.only_space (String c s) then EmptyString
    else String c (Text.rstrip s).
Proof. reflexivity. Qed.

(** What [rstrip] cuts off is whitespace. *)
Lemma rstrip_prefix s :
  ∃ rest, s = Text.rstrip s +:+ rest ∧ Text.only_space rest = true.
Proof.
  induction s as [|c s (rest & IH1 & IH2)]; [by exists EmptyString|].
  rewrite rstrip_unfold. destruct (Text.only_space (String c s)) eqn:E.
  - by exists (String c s).
  - exists rest. split; [|done]. rewrite app_cons. by f_equal.
Qed.

Lemma rstrip_idem s : Text.rstrip (Text.rstrip s) = Text.rstrip s.
Proof.
  induction s as [|c s IH]; [done|].
  rewrite rstrip_unfold. destruct (Text.only_space (String c s)) eqn:E; [done|].
  rewrite rstrip_unfold, IH.
  destruct (Text.only_space (String c (Text.rstrip s))) eqn:E'; [|done].
  destruct (rstrip_prefix s) as (rest & Hs & Hrest).
  apply only_space_lstrip in E', Hrest.
  pose proof (lstrip_app_space _ rest E') as H.
  rewrite app_cons, <- Hs, Hrest in H.
  apply only_space_lstrip in H. congruence.
Qed.

Lemma rstrip_clean s :
  Py.starts_with_space s = false → Py.starts_with_space (Text.rstrip s) = false.
Proof.
  intros Hs. destruct (rstrip_prefix s) as (rest & Heq & _).
  destruct (Py.starts_with_space (Text.rstrip s)) eqn:E; [|done].
  apply (starts_with_space_app _ rest) in E. rewrite <- Heq in E. congruence.
Qed.

(** A stripped text has no whitespace at either end: stripping it again
    changes nothing. *)
Lemma strip_idem s : Text.strip (Text.strip s) = Text.strip s.
Proof.
  unfold Text.strip.
  rewrite (lstrip_id (Text.rstrip (Py.lstrip s))).
  - apply rstrip_idem.
  - apply rstrip_clean, lstrip_clean.
Qed.

(** And it neither starts nor ends with whitespace. *)
Lemma strip_clean s :
  Py.starts_with_space (Text.strip s) = false
  ∧ Text.rstrip (Text.strip s) = Text.strip s.
Proof.
  unfold Text.strip. split; [apply rstrip_clean, lstrip_clean|apply rstrip_idem].
Qed.

End Token.

(** X19. The token the bot starts with is never empty. A non-empty
    BOT_TOKEN of the environment is taken as it is and the file is not
    looked at; otherwise the token is the stripped content of the file: it
    neither starts nor ends with a whitespace character, ASCII or not, and
    stripping it again changes nothing; and start-up fails with
    BotTokenUnspecified exactly when the environment gives no token and the
    file holds nothing but whitespace. *)
Theorem bot_token_is_never_empty environ file :
  (∀ token, Startup.load_bot_token environ file = inr token →
     token ≠ EmptyString
     ∧ (environ = Some token
        ∨ ((environ = None ∨ environ = Some EmptyString)
           ∧ ∃ text, file = Some text ∧ token = Text.strip text
                     ∧ Text.strip token = token
                     ∧ Py.starts_with_space token = false
                     ∧ Text.rstrip token = token)))
  ∧ (∀ token, environ = Some token → token ≠ EmptyString →
       Startup.load_bot_token environ file = inr token)
  ∧ (Startup.load_bot_token environ file = inl Startup.BotTokenUnspecified
     ↔ (environ = None ∨ environ = Some EmptyString)
       ∧ ∃ text, file = Some text ∧ Text.strip text = EmptyString).
Proof.
  unfold Startup.load_bot_token. split; [|split].
  - intros token H.
    assert (∀ text, match Text.strip text with
                    | EmptyString => inl Startup.BotTokenUnspecified
                    | bot_token => inr bot_token
                    end = inr token →
                    token ≠ EmptyString ∧ token = Text.strip text
                    ∧ Text.strip token = token
                    ∧ Py.starts_with_space token = false
                    ∧ Text.rstrip token = token) as Hfile.
    { intros text. destruct (Text.strip text) as [|a t] eqn:E; [done|].
      intros [= <-]. split; [done|]. split; [done|].
      rewrite <- E. split; [apply strip_idem|apply strip_clean]. }
    destruct environ as [[|c t]|].
    + destruct file as [text|]; [|done].
      destruct (Hfile text H) as (? & ? & ?). split; [done|].
      right. split; [by right|]. by exists text.
    + injection H as <-. split; [done|]. by left.
    + destruct file as [text|]; [|done].
      destruct (Hfile text H) as (? & ? & ?). split; [done|].
      right. split; [by left|]. by exists text.
  - intros token -> Hne. by destruct token.
  - split.
    + intros H.
      destruct environ as [[|c t]|]; [|done|];
        (destruct file as [text|]; [|done];
         destruct (Text.strip text) eqn:E; [|done]).
      * split; [by right|]. by exists text.
      * split; [by left|]. by exists text.
    + intros [[->| ->] (text & -> & ->)]; done.
Qed.

(** A token file that starts with a no-break space and ends with a line
    feed. *)
Lemma bot_token_is_never_empty_witness :
  Startup.load_bot_token (Some EmptyString)
    (Some (Py.NBSP +:+ "123456:ABC-DEF" +:+ Py.chr Py.LF))
  = inr "123456:ABC-DEF"
  ∧ "123456:ABC-DEF" ≠ EmptyString.
Proof.
  split; [reflexivity|].
  destruct (bot_token_is_never_empty (Some EmptyString)
              (Some (Py.NBSP +:+ "123456:ABC-DEF" +:+ Py.chr Py.LF))) as (H & _).
  apply (H "123456:ABC-DEF"). reflexivity.
Defined.

(** A file of no-break spaces and other whitespace holds no token: start-up
    fails, as it does for an empty file. *)
Example whitespace_file_is_no_token :
  Startup.load_bot_token None (Some (Py.NBSP +:+ Py.chr Py.LF))
  = inl Startup.BotTokenUnspecified
  ∧ Startup.load_bot_token None
      (Some (Py.IDEOGRAPHIC_SPACE +:+ " " +:+ Py.EM_SPACE +:+ Py.NBSP))
    = inl Startup.BotTokenUnspecified
  ∧ Startup.load_bot_token None (Some EmptyString)
    = inl Startup.BotTokenUnspecified
  ∧ Text.strip (Py.NBSP +:+ "12:ab cd" +:+ Py.EM_SPACE +:+ Py.chr Py.LF)
    = "12:ab cd".
Proof. repeat split; vm_compute; reflexivity. Qed.

Section CacheBound.
Import Resolver.

Lemma cache_get_None k c : cache_get k c = None → k ∉ c.*1.
Proof.
  unfold cache_get. induction c as [|[k' v] c IH]; simpl.
  - intros _. apply not_elem_of_nil.
  - destruct (String.eqb k' k) eqn:E; [done|]. intros H.
    apply String.eqb_neq in E. apply not_elem_of_cons. split; [done|]. by apply IH.
Qed.

Lemma cache_remove_shrinks k c r :
  cache_get k c = Some r →
  (List.length (cache_remove k c) < List.length c)%nat.
Proof.
  unfold cache_get, cache_remove. induction c as [|[k' v] c IH]; simpl; [done|].
  destruct (String.eqb k' k) eqn:E; simpl.
  - intros _. pose proof (cache_remove_length k c) as H.
    unfold cache_remove in H. lia.
  - intros H. specialize (IH H). lia.
Qed.

Lemma cache_remove_keys k c :
  (k ∉ (cache_remove k c).*1)
  ∧ (NoDup (fst <$> c) → NoDup (fst <$> cache_remove k c))
  ∧ ∀ x, x ∈ (fst <$> cache_remove k c) → x ∈ (fst <$> c).
Proof.
  unfold cache_remove. induction c as [|[k' v] c (IH1 & IH2 & IH3)]; simpl.
  - split; [apply not_elem_of_nil|]. by split.
  - destruct (String.eqb k' k) eqn:E; simpl.
    + split; [done|]. split.
      * intros H. apply NoDup_cons in H as [_ H]. by apply IH2.
      * intros x Hx. apply elem_of_cons. right. by apply IH3.
    + apply String.eqb_neq in E. split; [|split].
      * apply not_elem_of_cons. split; [done|]. exact IH1.
      * intros H. apply NoDup_cons in H as [Hk H]. apply NoDup_cons.
        split; [|by apply IH2]. intros Hin. apply Hk. by apply IH3.
      * intros x Hx. apply elem_of_cons in Hx as [->|Hx];
          apply elem_of_cons; [by left|right; by apply IH3].
Qed.

Lemma removelast_bounded (c : list (string * option string)) :
  c ≠ [] →
  S (List.length (removelast c)) = List.length c
  ∧ (NoDup (fst <$> c) → NoDup (fst <$> removelast c)).
Proof.
  intros Hc. rewrite removelast_firstn_len.
  change (@firstn) with (@take).
  rewrite length_take. split.
  - destruct c; [done|]. simpl. lia.
  - rewrite fmap_take. intros H. eapply sublist_NoDup; [done|apply sublist_take].
Qed.

Lemma resolve_user_bounded net st h :
  cache_bounded st →
  cache_bounded (fst (resolve_user net st h))
  ∧ (List.length (requests (fst (resolve_user net st h)))
     ≤ S (List.length (requests st)))%nat.
Proof.
  intros [Hlen Hnd]. unfold resolve_user, alru_cache, resolve_user_uncached.
  destruct (cache_get h (cache st)) as [r|] eqn:E.
  - destruct (cache_remove_keys h (cache st)) as (Hk & Hn & _).
    pose proof (cache_remove_shrinks h (cache st) r E).
    split; [|simpl; lia]. split; simpl; [lia|].
    apply NoDup_cons. split; [done|by apply Hn].
  - rewrite resolve_user_body_cases. cbn [fst snd cache requests].
    apply cache_get_None in E.
    match goal with |- context [removelast ?l] => set (c := l) end.
    assert (NoDup c.*1) as Hnd' by (subst c; simpl; apply NoDup_cons; by split).
    assert (List.length c = S (List.length (cache st))) as Hc by done.
    destruct (removelast_bounded c ltac:(done)) as [Hl Hr].
    clearbody c.
    split; [|rewrite length_app; simpl; lia].
    unfold cache_bounded. cbn [cache].
    destruct (decide (maxsize < List.length c)%nat).
    + split; [lia|by apply Hr].
    + split; [lia|done].
Qed.

End CacheBound.

(** X20. Whatever calls are made, starting with an empty cache, the cache
    never holds more than 1024 entries, never two for the same handle, and
    no call sends more than one request, so that the requests sent are at
    most as many as the calls. *)
Theorem resolver_cache_stays_bounded calls :
  let st := Resolver.resolve_all calls Resolver.init in
  (List.length (Resolver.cache st) ≤ 1024)%nat
  ∧ NoDup (fst <$> Resolver.cache st)
  ∧ (List.length (Resolver.requests st) ≤ List.length calls)%nat.
Proof.
  cut (∀ st, cache_bounded st →
         cache_bounded (Resolver.resolve_all calls st)
         ∧ (List.length (Resolver.requests (Resolver.resolve_all calls st))
            ≤ List.length (Resolver.requests st) + List.length calls)%nat).
  { intros H. destruct (H Resolver.init) as [[H1 H2] H3].
    - split; [simpl; unfold Resolver.maxsize; lia|constructor].
    - simpl in *. by repeat split. }
  induction calls as [|[net h] calls IH]; intros st Hb; simpl.
  - split; [done|lia].
  - destruct (resolve_user_bounded net st h Hb) as [Hb' Hq].
    destruct (IH _ Hb') as [Hb'' Hq'']. split; [done|lia].
Qed.
